(** * QMC: variational Monte Carlo for the helium ground state

    A shallow embedding of [qmcSimulation.py] (classes [Electron], [Pair],
    [Qmc] and the helpers [disp], [get_dist], [move_accept]) and of the
    calibration and reporting functions of [main.py].

    Numbers.  Python floats and numpy [float64] values are idealised as real
    numbers: rounding is not modelled, and neither is the overflow of numpy
    operations, which only yields [inf].  Two ways out of the reals are
    modelled.  A numpy division by zero does not raise but yields [inf],
    [-inf] or [nan]; values that can come out of such a division have type
    [float64] below, coordinates and norms have type [R].  The power
    [q ** 2] of a Python float raises [OverflowError] when it is out of
    range.

    Randomness.  The program draws from two global generators, numpy's
    ([np.random.uniform]) and Python's ([random.random]).  Each is a tape of
    unit draws in [0,1) that the operations consume from the front. *)

From Stdlib Require Import Reals Lra ZArith Lia.
From stdpp Require Import base list.

Local Open Scope R_scope.

(* ================================================================= *)
(** ** numpy scalars *)

Inductive float64 : Type :=
  | Fin (x : R)
  | PInf
  | NInf
  | NaN.

Definition np_neg (a : float64) : float64 :=
  match a with
  | Fin x => Fin (- x)
  | PInf => NInf
  | NInf => PInf
  | NaN => NaN
  end.

Definition np_add (a b : float64) : float64 :=
  match a, b with
  | NaN, _ | _, NaN => NaN
  | Fin x, Fin y => Fin (x + y)
  | PInf, NInf | NInf, PInf => NaN
  | PInf, _ | _, PInf => PInf
  | NInf, _ | _, NInf => NInf
  end.

(** The sign of a finite factor decides the sign of an infinite product;
    a zero factor makes it [nan]. *)
Definition signed_inf (x : R) (pos : bool) : float64 :=
  if Rlt_dec 0 x then (if pos then PInf else NInf)
  else if Rlt_dec x 0 then (if pos then NInf else PInf)
  else NaN.

Definition np_mul (a b : float64) : float64 :=
  match a, b with
  | NaN, _ | _, NaN => NaN
  | Fin x, Fin y => Fin (x * y)
  | Fin x, PInf | PInf, Fin x => signed_inf x true
  | Fin x, NInf | NInf, Fin x => signed_inf x false
  | PInf, PInf | NInf, NInf => PInf
  | PInf, NInf | NInf, PInf => NInf
  end.

(** numpy's true division.  Every zero divisor of the program is a square
    root or twice a fitted coefficient; it is taken as [+0.0]. *)
Definition np_div (a b : float64) : float64 :=
  match a, b with
  | NaN, _ | _, NaN => NaN
  | Fin x, Fin y =>
      if Req_dec_T y 0 then signed_inf x true else Fin (x / y)
  | Fin _, PInf | Fin _, NInf => Fin 0
  | PInf, Fin y => if Rlt_dec y 0 then NInf else PInf
  | NInf, Fin y => if Rlt_dec y 0 then PInf else NInf
  | PInf, PInf | PInf, NInf | NInf, PInf | NInf, NInf => NaN
  end.

(** [a < b] on numpy scalars: false as soon as one side is [nan]. *)
Definition np_lt (a b : float64) : bool :=
  match a, b with
  | NaN, _ | _, NaN => false
  | Fin x, Fin y => if Rlt_dec x y then true else false
  | NInf, NInf => false
  | NInf, _ => true
  | _, NInf => false
  | PInf, _ => false
  | Fin _, PInf => true
  end.

Definition is_finite (a : float64) : Prop :=
  match a with Fin _ => True | _ => False end.

(** [np.average] of a one-dimensional array: the sum over the length. *)
Definition np_average (buffer : list float64) : float64 :=
  np_div (foldl np_add (Fin 0) buffer) (Fin (INR (length buffer))).

(* ================================================================= *)
(** ** Exceptions, results and the two random generators *)

Inductive exn : Type :=
  | ValueError
  | ZeroDivisionError
  | IndexError
  | OverflowError.

Inductive result (A : Type) : Type :=
  | Ok (a : A)
  | Raise (e : exn).
Arguments Ok {A} a.
Arguments Raise {A} e.

Record rng : Type := Rng {
  np_tape : list R;   (* np.random: draws still to come *)
  py_tape : list R    (* random.random: draws still to come *)
}.

Inductive outcome (A : Type) : Type :=
  | Done (a : A) (g : rng)
  | Raised (e : exn)
  | Starved.          (* the tapes (or the loop fuel) ran out first *)
Arguments Done {A} a g.
Arguments Raised {A} e.
Arguments Starved {A}.

Definition M (A : Type) : Type := rng -> outcome A.

Definition ret {A} (a : A) : M A := fun g => Done a g.

Definition bind {A B} (m : M A) (k : A -> M B) : M B :=
  fun g =>
    match m g with
    | Done a g' => k a g'
    | Raised e => Raised e
    | Starved => Starved
    end.

Definition lift {A} (x : result A) : M A :=
  fun g => match x with Ok a => Done a g | Raise e => Raised e end.

Definition rbind {A B} (x : result A) (k : A -> result B) : result B :=
  match x with Ok a => k a | Raise e => Raise e end.

Declare Scope qmc_scope.
Delimit Scope qmc_scope with qmc.
Notation "'do' x <- m ; k" := (bind m (fun x => k))
  (at level 10, x pattern, m at level 100, k at level 200) : qmc_scope.
Notation "'try' x <- m ; k" := (rbind m (fun x => k))
  (at level 10, x pattern, m at level 100, k at level 200) : qmc_scope.
Local Open Scope qmc_scope.

(* ================================================================= *)
(** ** Vectors and the geometry helpers *)

(** A numpy array of three floats; [c0 v] is [v[0]]. *)
Record vec3 : Type := Vec3 { c0 : R; c1 : R; c2 : R }.

(** [a + b] on two arrays of length three. *)
Definition vec_add (a b : vec3) : vec3 :=
  Vec3 (c0 a + c0 b) (c1 a + c1 b) (c2 a + c2 b).

Definition disp (v : vec3) : R :=
  sqrt (c0 v ^ 2 + c1 v ^ 2 + c2 v ^ 2).

Definition get_dist (r1 r2 : vec3) : R :=
  sqrt ((c0 r2 - c0 r1) ^ 2 + (c1 r2 - c1 r1) ^ 2 + (c2 r2 - c2 r1) ^ 2).

(** [np.exp] is taken over the reals: its rounding, its overflow to [inf]
    and its underflow to [0] are not modelled. *)
Definition move_accept (r1 r2 t1 t2 charge : R) : R :=
  exp (2 * charge * (r1 + r2 - t1 - t2)).

(** [np.random.uniform(low, high, 3)]: [low + (high - low) * u] for three
    successive draws [u] of numpy's generator. *)
Definition scale (low high u : R) : R := low + (high - low) * u.

Definition uniform_vec (low high u0 u1 u2 : R) : vec3 :=
  Vec3 (scale low high u0) (scale low high u1) (scale low high u2).

Definition np_random_uniform3 (low high : R) : M vec3 :=
  fun g =>
    match np_tape g with
    | u0 :: u1 :: u2 :: rest =>
        Done (uniform_vec low high u0 u1 u2) (Rng rest (py_tape g))
    | _ => Starved
    end.

(** [random.random()]. *)
Definition random_random : M R :=
  fun g =>
    match py_tape g with
    | u :: rest => Done u (Rng (np_tape g) rest)
    | [] => Starved
    end.

(** [np.zeros(n, dtype=float)]: a negative length is a [ValueError]. *)
Definition np_zeros (n : Z) : result (list R) :=
  if (n <? 0)%Z then Raise ValueError else Ok (replicate (Z.to_nat n) 0).

(** [a[i] = v] on an array, [i >= 0]. *)
Definition np_setitem {A} (a : list A) (i : nat) (v : A) : result (list A) :=
  if decide (i < length a)%nat then Ok (<[i := v]> a) else Raise IndexError.

(** [l[i]] on a Python list, [i >= 0]. *)
Definition getitem {A} (l : list A) (i : nat) : result A :=
  match l !! i with Some a => Ok a | None => Raise IndexError end.

(** [x ** 2] on a Python float raises [OverflowError] when the square is out
    of the range of a float: when it rounds above the largest float, that is
    from [2^1024 - 2^970] on (the power is taken as correctly rounded). *)
Definition pow_overflow : R := 2 ^ 1024 - 2 ^ 970.

Definition py_pow2 (x : R) : result R :=
  if Rle_dec pow_overflow (x ^ 2) then Raise OverflowError else Ok (x ^ 2).

(* ================================================================= *)
(** ** qmcSimulation.py *)

Record Electron : Type := mkElectron { r : vec3; norm : R }.

Definition get_disp (e : Electron) : R := disp (r e).

Record Pair : Type := mkPair { e1 : Electron; e2 : Electron }.

(** [charge] is a Python float, so [q ** 2] can raise; the two norms and the
    distance are numpy scalars, so the divisions cannot. *)
Definition energy (p : Pair) (charge : R) : result float64 :=
  let q := charge in
  let _r1 := norm (e1 p) in
  let _r2 := norm (e2 p) in
  let _r12 := get_dist (r (e1 p)) (r (e2 p)) in
  try q2 <- py_pow2 q;
  Ok (np_add (np_add (np_add (Fin (- q2))
                             (np_div (Fin (q - 2)) (Fin _r1)))
                     (np_div (Fin (q - 2)) (Fin _r2)))
             (np_div (Fin 1) (Fin _r12))).

(** The state of a [Qmc] object.  Its [display] field belongs to the
    plotting layer and is left out. *)
Record Qmc : Type := mkQmc {
  num_pairs : Z;
  pairs : list Pair;
  radius : R;
  step_size : R;
  charge : R;
  x_data : list R;
  y_data : list R;
  z_data : list R
}.

Definition set_pairs (s : Qmc) (ps : list Pair) : Qmc :=
  mkQmc (num_pairs s) ps (radius s) (step_size s) (charge s)
        (x_data s) (y_data s) (z_data s).

Definition set_data (s : Qmc) (xs ys zs : list R) : Qmc :=
  mkQmc (num_pairs s) (pairs s) (radius s) (step_size s) (charge s) xs ys zs.

(** The [while flag] loop of [random_vector] over numpy's tape: each round
    takes three draws, and the loop ends at the first vector whose norm is at
    most the radius. *)
Fixpoint random_vector_loop (radius : R) (tape : list R)
  : option (vec3 * R * list R) :=
  match tape with
  | u0 :: u1 :: u2 :: rest =>
      let v := uniform_vec (- radius) radius u0 u1 u2 in
      let norm := sqrt (c0 v ^ 2 + c1 v ^ 2 + c2 v ^ 2) in
      if Rle_dec norm radius then Some (v, norm, rest)
      else random_vector_loop radius rest
  | _ => None
  end.

Definition random_vector (s : Qmc) : M (vec3 * R) :=
  fun g =>
    match random_vector_loop (radius s) (np_tape g) with
    | Some (v, norm, rest) => Done (v, norm) (Rng rest (py_tape g))
    | None => Starved
    end.

(** [for i in range(self.num_pairs)] of [generate_pairs], [n] rounds to go. *)
Fixpoint generate_pairs_loop (n : nat) (s : Qmc) : M Qmc :=
  match n with
  | O => ret s
  | S n' =>
      do (r1, r1_norm) <- random_vector s;
      do (r2, r2_norm) <- random_vector s;
      let e1 := mkElectron r1 r1_norm in
      let e2 := mkElectron r2 r2_norm in
      generate_pairs_loop n' (set_pairs s (pairs s ++ [mkPair e1 e2]))
  end.

Definition generate_pairs (s : Qmc) : M Qmc :=
  generate_pairs_loop (Z.to_nat (num_pairs s)) s.

(** [Qmc.__init__].  The three [np.zeros] calls come before the pairs are
    generated; building the display is outside the model. *)
Definition Qmc_init (num_pairs : Z) (radius step_size charge : R) : M Qmc :=
  do xs <- lift (np_zeros (2 * num_pairs));
  do ys <- lift (np_zeros (2 * num_pairs));
  do zs <- lift (np_zeros (2 * num_pairs));
  generate_pairs (mkQmc num_pairs [] radius step_size charge xs ys zs).

(** One round of the loop of [get_data]. *)
Definition get_data_body (s : Qmc) (i : nat) : result Qmc :=
  try p <- getitem (pairs s) i;
  try xs <- np_setitem (x_data s) (2 * i) (c0 (r (e1 p)));
  try ys <- np_setitem (y_data s) (2 * i) (c1 (r (e1 p)));
  try zs <- np_setitem (z_data s) (2 * i) (c2 (r (e1 p)));
  try q <- getitem (pairs s) i;
  try xs <- np_setitem xs (2 * i + 1) (c0 (r (e2 q)));
  try ys <- np_setitem ys (2 * i + 1) (c1 (r (e2 q)));
  try zs <- np_setitem zs (2 * i + 1) (c2 (r (e2 q)));
  Ok (set_data s xs ys zs).

Fixpoint for_range {St} (body : St -> nat -> result St) (i n : nat) (s : St)
  : result St :=
  match n with
  | O => Ok s
  | S n' => try s' <- body s i; for_range body (S i) n' s'
  end.

Definition get_data (s : Qmc) : result (Qmc * (list R * list R * list R)) :=
  try s' <- for_range get_data_body 0 (Z.to_nat (num_pairs s)) s;
  Ok (s', (x_data s', y_data s', z_data s')).

(** One round of [for pair in self.pairs] of [reset]: the source writes
    [pair.e1.r] twice and [pair.e2.r] never. *)
Definition reset_pair (s : Qmc) (pair : Pair) : M Pair :=
  do (v, n) <- random_vector s;
  let pair := mkPair (mkElectron v n) (e2 pair) in
  do (v, n) <- random_vector s;
  ret (mkPair (mkElectron v (norm (e1 pair))) (mkElectron (r (e2 pair)) n)).

Fixpoint reset_loop (s : Qmc) (todo : list Pair) : M (list Pair) :=
  match todo with
  | [] => ret []
  | p :: rest =>
      do pair' <- reset_pair s p;
      do rest' <- reset_loop s rest;
      ret (pair' :: rest')
  end.

Definition reset (s : Qmc) : M Qmc :=
  do ps <- reset_loop s (pairs s);
  ret (set_pairs s ps).

Definition set_charge (s : Qmc) (charge : R) : Qmc :=
  mkQmc (num_pairs s) (pairs s) (radius s) (step_size s) charge
        (x_data s) (y_data s) (z_data s).

(** [for pair in self.pairs: avg_e += pair.energy(self.charge)]. *)
Fixpoint sum_energy (avg_e : float64) (todo : list Pair) (charge : R)
  : result float64 :=
  match todo with
  | [] => Ok avg_e
  | p :: rest =>
      try e <- energy p charge; sum_energy (np_add avg_e e) rest charge
  end.

(** [avg_energy]: the accumulator starts as the Python float [0.0] and is a
    numpy scalar after the first pair, so dividing by [num_pairs = 0] raises
    only when there was no pair. *)
Definition avg_energy (s : Qmc) : result float64 :=
  try avg_e <- sum_energy (Fin 0) (pairs s) (charge s);
  match pairs s with
  | [] => if (num_pairs s =? 0)%Z then Raise ZeroDivisionError
          else Ok (Fin (0 / IZR (num_pairs s)))
  | _ :: _ => Ok (np_div avg_e (Fin (IZR (num_pairs s))))
  end.

(** One round of the loop of [update], for [self.pairs[j]]. *)
Definition update_body (s : Qmc) (j : nat) : M Qmc :=
  let q := charge s in
  let step := step_size s in
  do p <- lift (getitem (pairs s) j);
  let r1 := r (e1 p) in
  let r2 := r (e2 p) in
  do d1 <- np_random_uniform3 (- step) step;
  let t1 := vec_add r1 d1 in
  let t1_norm := sqrt (c0 t1 ^ 2 + c1 t1 ^ 2 + c2 t1 ^ 2) in
  do d2 <- np_random_uniform3 (- step) step;
  let t2 := vec_add r2 d2 in
  let t2_norm := sqrt (c0 t2 ^ 2 + c1 t2 ^ 2 + c2 t2 ^ 2) in
  do u <- random_random;
  if Rgt_dec (move_accept (norm (e1 p)) (norm (e2 p)) t1_norm t2_norm q) u
  then ret (set_pairs s (<[j := mkPair (mkElectron t1 t1_norm)
                                        (mkElectron t2 t2_norm)]> (pairs s)))
  else ret s.

Fixpoint for_rangeM {St} (body : St -> nat -> M St) (i n : nat) (s : St)
  : M St :=
  match n with
  | O => ret s
  | S n' => do s' <- body s i; for_rangeM body (S i) n' s'
  end.

Definition update (s : Qmc) : M Qmc :=
  for_rangeM update_body 0 (Z.to_nat (num_pairs s)) s.

(* ================================================================= *)
(** ** main.py *)

(** [sim.display.plot_system(sim)]: the display reads the coordinates through
    [get_data], which refreshes the three coordinate arrays. *)
Definition plot_system (sim : Qmc) : result Qmc :=
  try sd <- get_data sim; Ok (fst sd).

Definition window_size : nat := 25.

(** One round of [for i in range(0, window_size)] of [calibrate_system]. *)
Definition window_body (plotting : bool)
    (st : Qmc * list float64 * list float64) (i : nat)
  : M (Qmc * list float64 * list float64) :=
  let '(sim, buffer, test_set) := st in
  do current <- lift (avg_energy sim);
  do buffer <- lift (np_setitem buffer i current);
  let test_set := test_set ++ [current] in
  do sim <- update sim;
  if plotting && (i mod 10 =? 0)%nat
  then do sim <- lift (plot_system sim); ret (sim, buffer, test_set)
  else ret (sim, buffer, test_set).

(** The [while not equilibrium] loop, with [fuel] bounding its rounds. *)
Fixpoint calibrate_loop (fuel : nat) (plotting : bool) (sim : Qmc)
    (buffer test_set : list float64) (previous_avg : float64)
  : M (Qmc * list float64) :=
  match fuel with
  | O => fun _ => Starved
  | S fuel' =>
      do st <- for_rangeM (window_body plotting) 0 window_size
                          (sim, buffer, test_set);
      let '(sim, buffer, test_set) := st in
      let current_avg := np_average buffer in
      if np_lt current_avg previous_avg
      then calibrate_loop fuel' plotting sim buffer test_set current_avg
      else ret (sim, test_set)
  end.

(** [calibrate_system(sim, plotting)]: the final state of the simulation and
    [test_set], every energy sample taken. *)
Definition calibrate_system (fuel : nat) (sim : Qmc) (plotting : bool)
  : M (Qmc * list float64) :=
  calibrate_loop fuel plotting sim (replicate window_size (Fin 0)) []
                 (Fin 100).

(** [print_results(t_total, poly)]: the two values it prints, [x_min] and
    [y_min].  [poly] is the array of coefficients from [np.polyfit]. *)
Definition print_results (t_total : R) (poly : list float64)
  : result (float64 * float64) :=
  match poly with
  | [a; b; c] =>
      let x_min := np_div (np_neg b) (np_mul (Fin 2) a) in
      let y_min := np_add (np_add (np_mul a (np_mul x_min x_min))
                                  (np_mul b x_min)) c in
      Ok (x_min, y_min)
  | _ => Raise ValueError
  end.

(* ================================================================= *)
(** ** Vocabulary of the properties *)

(** A draw of either generator lies in [0,1). *)
Definition unit_draw (u : R) : Prop := 0 <= u < 1.

Definition valid_tape (tape : list R) : Prop := Forall unit_draw tape.

Definition valid_rng (g : rng) : Prop :=
  valid_tape (np_tape g) /\ valid_tape (py_tape g).

(** The cube [-radius, radius]^3. *)
Definition in_cube (radius : R) (v : vec3) : Prop :=
  (- radius <= c0 v <= radius) /\
  (- radius <= c1 v <= radius) /\
  (- radius <= c2 v <= radius).

(** The rounds of rejection sampling that did not end the loop: the draws
    are taken three at a time and each vector lies outside the ball. *)
Inductive all_rejected (radius : R) : list R -> Prop :=
  | rejected_nil : all_rejected radius []
  | rejected_cons u0 u1 u2 tape :
      ~ disp (uniform_vec (- radius) radius u0 u1 u2) <= radius ->
      all_rejected radius tape ->
      all_rejected radius (u0 :: u1 :: u2 :: tape).

(** The cached norm of an electron agrees with its position. *)
Definition cached (e : Electron) : Prop := norm e = disp (r e).

Definition pair_cached (p : Pair) : Prop := cached (e1 p) /\ cached (e2 p).

(** An electron lies in the ball of the given radius. *)
Definition in_ball (radius : R) (e : Electron) : Prop := disp (r e) <= radius.

(** [sampled radius tape vs rest]: the rejection sampler reads the vectors
    [vs] off [tape], in this order, each after finitely many rejected rounds,
    and leaves [rest]. *)
Inductive sampled (radius : R) : list R -> list vec3 -> list R -> Prop :=
  | sampled_nil tape : sampled radius tape [] tape
  | sampled_cons pre u0 u1 u2 tape vs rest :
      all_rejected radius pre ->
      disp (uniform_vec (- radius) radius u0 u1 u2) <= radius ->
      sampled radius tape vs rest ->
      sampled radius (pre ++ u0 :: u1 :: u2 :: tape)
              (uniform_vec (- radius) radius u0 u1 u2 :: vs) rest.

(** [supplies radius k tape rest]: the first [k] samples of the rejection
    sampler can be read off [tape], each after finitely many rejected
    rounds, and leave [rest]. *)
Inductive supplies (radius : R) : nat -> list R -> list R -> Prop :=
  | supplies_O tape : supplies radius 0 tape tape
  | supplies_S k pre u0 u1 u2 tape rest :
      all_rejected radius pre ->
      disp (uniform_vec (- radius) radius u0 u1 u2) <= radius ->
      supplies radius k tape rest ->
      supplies radius (S k) (pre ++ u0 :: u1 :: u2 :: tape) rest.

Definition pair_in_ball (radius : R) (p : Pair) : Prop :=
  in_ball radius (e1 p) /\ in_ball radius (e2 p).

(** The Metropolis step of one pair in the words of the specification:
    displacements [d1], [d2], acceptance draw [u]. *)
Definition acceptance_ratio (q r1 r2 t1 t2 : R) : R :=
  exp (2 * q * (r1 + r2 - t1 - t2)).

Definition trial_pair (p : Pair) (d1 d2 : vec3) : Pair :=
  mkPair (mkElectron (vec_add (r (e1 p)) d1) (disp (vec_add (r (e1 p)) d1)))
         (mkElectron (vec_add (r (e2 p)) d2) (disp (vec_add (r (e2 p)) d2))).

Definition metropolis (q : R) (p : Pair) (d1 d2 : vec3) (u : R) : Pair :=
  let t := trial_pair p d1 d2 in
  if Rgt_dec (acceptance_ratio q (norm (e1 p)) (norm (e2 p))
                               (norm (e1 t)) (norm (e2 t))) u
  then t else p.

(** One sweep over a list of pairs: six numpy draws and one Python draw
    per pair, in order. *)
Fixpoint metropolis_sweep (q step : R) (ps : list Pair) (np py : list R)
  : option (list Pair * list R * list R) :=
  match ps with
  | [] => Some ([], np, py)
  | p :: ps' =>
      match np, py with
      | a0 :: a1 :: a2 :: b0 :: b1 :: b2 :: np', u :: py' =>
          match metropolis_sweep q step ps' np' py' with
          | Some (ps'', np'', py'') =>
              Some (metropolis q p (uniform_vec (- step) step a0 a1 a2)
                               (uniform_vec (- step) step b0 b1 b2) u :: ps'',
                    np'', py'')
          | None => None
          end
      | _, _ => None
      end
  end.

(** Every coordinate of a displacement lies in [[-step, step]]. *)
Definition in_step (step : R) (d : vec3) : Prop := in_cube step d.

(** The shape the constructor gives an ensemble: as many pairs as
    [num_pairs] says, and coordinate arrays of twice that length. *)
Definition well_formed (s : Qmc) : Prop :=
  num_pairs s = Z.of_nat (length (pairs s)) /\
  length (x_data s) = (2 * length (pairs s))%nat /\
  length (y_data s) = (2 * length (pairs s))%nat /\
  length (z_data s) = (2 * length (pairs s))%nat.

(** The local energy of a pair in the words of the specification, and its
    mean over a list of pairs. *)
Definition local_energy (p : Pair) (q : R) : R :=
  - q ^ 2 + (q - 2) / norm (e1 p) + (q - 2) / norm (e2 p)
  + 1 / get_dist (r (e1 p)) (r (e2 p)).

Definition Rsum (l : list R) : R := foldr Rplus 0 l.

Definition mean_energy (ps : list Pair) (q : R) : R :=
  Rsum (map (fun p => local_energy p q) ps) / INR (length ps).

(** The same formula with numpy's division, which turns a zero divisor
    into [inf], [-inf] or [nan]. *)
Definition local_energy64 (p : Pair) (q : R) : float64 :=
  np_add (np_add (np_add (Fin (- q ^ 2))
                         (np_div (Fin (q - 2)) (Fin (norm (e1 p)))))
                 (np_div (Fin (q - 2)) (Fin (norm (e2 p)))))
         (np_div (Fin 1) (Fin (get_dist (r (e1 p)) (r (e2 p))))).

(** A cached norm is zero, or the two electrons are at the same position. *)
Definition singular (p : Pair) : Prop :=
  norm (e1 p) = 0 \/ norm (e2 p) = 0 \/ r (e1 p) = r (e2 p).

(** None of the three divisors of the local energy is zero. *)
Definition nonsingular (p : Pair) : Prop :=
  norm (e1 p) <> 0 /\ norm (e2 p) <> 0 /\
  get_dist (r (e1 p)) (r (e2 p)) <> 0.

(** What the rounds [i], ..., [i + k - 1] of a window write into the
    buffer when every sample is [v]. *)
Fixpoint fill {A} (i k : nat) (v : A) (buffer : list A) : list A :=
  match k with
  | O => buffer
  | S k' => fill (S i) k' v (<[i := v]> buffer)
  end.

(** ** Sample states *)

Definition origin : vec3 := Vec3 0 0 0.

(** One helium atom with both electrons on the nucleus: what
    [Qmc(1, 1, 1, 1)] builds when every draw is [1/2]. *)
Definition sim_origin : Qmc :=
  mkQmc 1 [mkPair (mkElectron origin 0) (mkElectron origin 0)] 1 1 1
        [0; 0] [0; 0] [0; 0].

(** One atom with both electrons on the x axis, [1/200] apart, at charge
    [2] and with step size [0]. *)
Definition sim_axis : Qmc :=
  mkQmc 1 [mkPair (mkElectron (Vec3 1 0 0) 1)
                  (mkElectron (Vec3 (201/200) 0 0) (201/200))]
        4 0 2 [0; 0] [0; 0] [0; 0].


(** One atom with electron 1 on the unit sphere and electron 2 on the
    nucleus: what [Qmc(1, 1, 1, 1)] builds from the draws
    [0, 1/2, 1/2, 1/2, 1/2, 1/2]. *)
Definition sim_face : Qmc :=
  mkQmc 1 [mkPair (mkElectron (Vec3 (-1) 0 0) 1) (mkElectron origin 0)] 1 1 1
        [0; 0] [0; 0] [0; 0].

(** The same ensemble with another radius. *)
Definition with_radius (s : Qmc) (radius : R) : Qmc :=
  mkQmc (num_pairs s) (pairs s) radius (step_size s) (charge s)
        (x_data s) (y_data s) (z_data s).

Definition outcome_map {A B} (f : A -> B) (o : outcome A) : outcome B :=
  match o with
  | Done a g => Done (f a) g
  | Raised e => Raised e
  | Starved => Starved
  end.

(** The positions of the electrons of an ensemble, pair by pair. *)
Definition positions (s : Qmc) : list (vec3 * vec3) :=
  map (fun p => (r (e1 p), r (e2 p))) (pairs s).

(** The states a correctly constructed ensemble (positive pair count,
    positive radius) can be brought into by [reset], [set_charge], [update]
    and [get_data]; [avg_energy] changes nothing. *)
Inductive reachable : Qmc -> Prop :=
  | reach_init n rad step q g s g' :
      (0 < n)%Z -> 0 < rad ->
      Qmc_init n rad step q g = Done s g' -> reachable s
  | reach_reset s g s' g' :
      reachable s -> reset s g = Done s' g' -> reachable s'
  | reach_set_charge s q :
      reachable s -> reachable (set_charge s q)
  | reach_update s g s' g' :
      reachable s -> update s g = Done s' g' -> reachable s'
  | reach_get_data s s' d :
      reachable s -> get_data s = Ok (s', d) -> reachable s'.

(** The coordinate array [get_data] fills for one coordinate: pair by pair,
    electron 1 before electron 2. *)
Definition snapshot (coord : vec3 -> R) (ps : list Pair) : list R :=
  flat_map (fun p => [coord (r (e1 p)); coord (r (e2 p))]) ps.

(** Two states of one ensemble that differ at most in where the electrons
    are and in the coordinate arrays. *)
Definition same_frame (s s' : Qmc) : Prop :=
  num_pairs s' = num_pairs s /\ radius s' = radius s /\
  step_size s' = step_size s /\ charge s' = charge s /\
  length (pairs s') = length (pairs s).

(* ================================================================= *)
(** * Properties *)

(** Decide the comparisons of reals a goal branches on. *)
Ltac rdec :=
  repeat match goal with
  | |- context [Rlt_dec ?a ?b] => destruct (Rlt_dec a b); try lra
  | |- context [Rle_dec ?a ?b] => destruct (Rle_dec a b); try lra
  | |- context [Rgt_dec ?a ?b] => destruct (Rgt_dec a b); try lra
  | |- context [Req_dec_T ?a ?b] => destruct (Req_dec_T a b); try lra
  end.

(** ** numpy scalars *)

Lemma np_add_NaN_r a : np_add a NaN = NaN.
Proof. by destruct a. Qed.

Lemma np_add_Fin x y : np_add (Fin x) (Fin y) = Fin (x + y).
Proof. done. Qed.

Lemma np_div_Fin x y : y <> 0 -> np_div (Fin x) (Fin y) = Fin (x / y).
Proof. intros Hy. simpl. by destruct (Req_dec_T y 0). Qed.

Lemma np_div_zero x : np_div (Fin x) (Fin 0) = signed_inf x true.
Proof. simpl. by destruct (Req_dec_T 0 0). Qed.

Lemma np_div_zero_not_finite x : ~ is_finite (np_div (Fin x) (Fin 0)).
Proof. rewrite np_div_zero. unfold signed_inf. rdec; simpl; tauto. Qed.

Lemma np_mul_zero_inf a : ~ is_finite a -> np_mul (Fin 0) (np_mul a a) = NaN.
Proof. destruct a; simpl; try tauto; intros _; unfold signed_inf; by rdec. Qed.

(** ** The acceptance ratio *)

(** Over the reals, swapping the current and the trial distances turns the
    acceptance ratio into its multiplicative inverse.  The code computes
    the ratio with [np.exp] on floats, where the product is only close to
    [1] and is [nan] once one factor overflows; that is outside this
    embedding. *)
Theorem move_accept_swap_inverse (r1 r2 t1 t2 q : R) :
  move_accept r1 r2 t1 t2 q * move_accept t1 t2 r1 r2 q = 1.
Proof.
  unfold move_accept. rewrite <- exp_plus.
  replace (2 * q * (r1 + r2 - t1 - t2) + 2 * q * (t1 + t2 - r1 - r2))
    with 0 by ring.
  apply exp_0.
Qed.

Lemma move_accept_pos (r1 r2 t1 t2 q : R) : 0 < move_accept r1 r2 t1 t2 q.
Proof. apply exp_pos. Qed.

(** ** The reporting stage *)

(** C7, as the code has it: with a leading coefficient [a = 0] nothing is
    raised; [print_results] divides [-b] by zero and goes on to print a
    vertex that is not finite and a minimum that is [nan]. *)
Theorem print_results_degenerate_fit (t_total : R) (b c : float64) :
  exists x_min,
    print_results t_total [Fin 0; b; c] = Ok (x_min, NaN) /\
    ~ is_finite x_min.
Proof.
  unfold print_results.
  set (x := np_div (np_neg b) (np_mul (Fin 2) (Fin 0))).
  assert (Hx : ~ is_finite x).
  { subst x. simpl np_mul. replace (2 * 0) with 0 by ring.
    destruct b; simpl np_neg.
    - apply np_div_zero_not_finite.
    - simpl. rdec. simpl. tauto.
    - simpl. rdec. simpl. tauto.
    - simpl. tauto. }
  exists x. split; [|done].
  rewrite (np_mul_zero_inf x Hx). by destruct (np_mul b x), c.
Qed.

(** C7 fails on a perfectly linear curve [E(q) = q]: the fit is
    [a = 0, b = 1, c = 0], and the call returns normally with the vertex
    [-inf] instead of reporting an error. *)
Lemma print_results_linear_curve_no_error :
  print_results 0 [Fin 0; Fin 1; Fin 0] = Ok (NInf, NaN) /\
  ~ (exists e, print_results 0 [Fin 0; Fin 1; Fin 0] = Raise e).
Proof.
  assert (H : print_results 0 [Fin 0; Fin 1; Fin 0] = Ok (NInf, NaN)).
  { unfold print_results. simpl np_neg. simpl np_mul at 5.
    replace (2 * 0) with 0 by ring. rewrite np_div_zero.
    unfold signed_inf. rdec. simpl. unfold signed_inf. by rdec. }
  split; [done|]. intros [e He]. by rewrite H in He.
Qed.

(** ** Rejection sampling *)

Lemma tape_ind3 (P : list R -> Prop) :
  P [] -> (forall a, P [a]) -> (forall a b, P [a; b]) ->
  (forall a b c l, P l -> P (a :: b :: c :: l)) ->
  forall l, P l.
Proof.
  intros H0 H1 H2 H3. fix IH 1.
  intros [|a [|b [|c l]]]; [apply H0 | apply H1 | apply H2 | apply H3, IH].
Qed.

Lemma disp_nonneg v : 0 <= disp v.
Proof. apply sqrt_pos. Qed.

Lemma scale_bounds low high u :
  low <= high -> unit_draw u -> low <= scale low high u <= high.
Proof. unfold scale, unit_draw. intros Hlh [H0 H1]. split; nra. Qed.

Lemma uniform_vec_in_cube radius u0 u1 u2 :
  0 <= radius -> unit_draw u0 -> unit_draw u1 -> unit_draw u2 ->
  in_cube radius (uniform_vec (- radius) radius u0 u1 u2).
Proof.
  intros Hr H0 H1 H2. unfold in_cube, uniform_vec; simpl.
  repeat split; apply scale_bounds; auto; lra.
Qed.

(** What a finished run of the loop has done. *)
Lemma random_vector_loop_Some radius tape v n rest :
  random_vector_loop radius tape = Some (v, n, rest) ->
  exists pre u0 u1 u2,
    tape = pre ++ u0 :: u1 :: u2 :: rest /\
    all_rejected radius pre /\
    v = uniform_vec (- radius) radius u0 u1 u2 /\
    n = disp v /\ n <= radius.
Proof.
  revert v n rest. induction tape as [| a | a b | a b c l IH] using tape_ind3;
    intros v n rest H; try discriminate.
  simpl in H.
  destruct (Rle_dec _ radius) as [Hle | Hgt].
  - inversion H; subst. exists [], a, b, c.
    repeat split; auto. constructor.
  - destruct (IH _ _ _ H) as (pre & u0 & u1 & u2 & -> & Hrej & Hv & Hn & Hle).
    exists (a :: b :: c :: pre), u0, u1, u2.
    repeat split; auto. by constructor.
Qed.

(** The loop ends at the first accepted vector. *)
Lemma random_vector_loop_accepts radius pre u0 u1 u2 rest :
  all_rejected radius pre ->
  disp (uniform_vec (- radius) radius u0 u1 u2) <= radius ->
  random_vector_loop radius (pre ++ u0 :: u1 :: u2 :: rest) =
    Some (uniform_vec (- radius) radius u0 u1 u2,
          disp (uniform_vec (- radius) radius u0 u1 u2), rest).
Proof.
  intros Hrej Hacc. induction Hrej as [| a b c l Hgt _ IH]; simpl.
  - by destruct (Rle_dec _ radius).
  - destruct (Rle_dec _ radius) as [Hle|_]; [|done]. by destruct Hgt.
Qed.

(** With a negative radius no vector is ever accepted. *)
Lemma random_vector_loop_negative radius tape :
  radius < 0 -> random_vector_loop radius tape = None.
Proof.
  intros Hneg. induction tape as [| a | a b | a b c l IH] using tape_ind3;
    try done.
  cbn [random_vector_loop]. destruct (Rle_dec _ radius) as [Hle|_]; [|done].
  pose proof (disp_nonneg (uniform_vec (- radius) radius a b c)) as H.
  unfold disp in H. lra.
Qed.

(** C5: whatever [random_vector] returns was drawn, three coordinates at a
    time, from the cube [[-radius, radius]^3]; the vectors drawn before it had
    a norm above the radius and were dropped, and the returned pair
    [(v, n)] has [n = |v|] and [n <= radius]. *)
Theorem random_vector_in_ball (s : Qmc) (g g' : rng) (v : vec3) (n : R) :
  valid_tape (np_tape g) ->
  random_vector s g = Done (v, n) g' ->
  (exists pre u0 u1 u2,
     np_tape g = pre ++ u0 :: u1 :: u2 :: np_tape g' /\
     all_rejected (radius s) pre /\
     v = uniform_vec (- radius s) (radius s) u0 u1 u2) /\
  in_cube (radius s) v /\
  n = disp v /\
  n <= radius s /\
  py_tape g' = py_tape g.
Proof.
  intros Hvalid Hrun. unfold random_vector in Hrun.
  destruct (random_vector_loop (radius s) (np_tape g))
    as [[[v0 n0] rest]|] eqn:Hloop; [|discriminate].
  inversion Hrun; subst; clear Hrun. simpl.
  destruct (random_vector_loop_Some _ _ _ _ _ Hloop)
    as (pre & u0 & u1 & u2 & Htape & Hrej & Hv & Hn & Hle).
  assert (Hrad : 0 <= radius s).
  { pose proof (disp_nonneg v). lra. }
  split; [by exists pre, u0, u1, u2|].
  repeat split; auto.
  all: rewrite Htape in Hvalid; apply Forall_app in Hvalid as [_ Hvalid].
  all: inversion Hvalid as [|? ? Hu0 Hv1]; subst.
  all: inversion Hv1 as [|? ? Hu1 Hv2]; subst.
  all: inversion Hv2 as [|? ? Hu2 _]; subst.
  all: apply (uniform_vec_in_cube (radius s) u0 u1 u2); auto.
Qed.

(** ** The monad *)

Lemma bind_Done {A B} (m : M A) (k : A -> M B) g b g' :
  bind m k g = Done b g' <->
  exists a g1, m g = Done a g1 /\ k a g1 = Done b g'.
Proof.
  unfold bind. destruct (m g) as [a g1| |]; split.
  - intros H. by exists a, g1.
  - by intros (a' & g2 & [= -> ->] & H).
  - done.
  - by intros (? & ? & ? & _).
  - done.
  - by intros (? & ? & ? & _).
Qed.

Lemma bind_Raised {A B} (m : M A) (k : A -> M B) g e :
  bind m k g = Raised e <->
  m g = Raised e \/ exists a g1, m g = Done a g1 /\ k a g1 = Raised e.
Proof.
  unfold bind. destruct (m g) as [a g1| |]; split.
  - intros H. right. by exists a, g1.
  - intros [?|(a' & g2 & [= -> ->] & H)]; done.
  - intros [= ->]. by left.
  - by intros [[= ->]|(? & ? & ? & _)].
  - done.
  - by intros [?|(? & ? & ? & _)].
Qed.

Lemma random_vector_Done_iff s g v n g' :
  random_vector s g = Done (v, n) g' <->
  exists pre u0 u1 u2,
    np_tape g = pre ++ u0 :: u1 :: u2 :: np_tape g' /\
    all_rejected (radius s) pre /\
    v = uniform_vec (- radius s) (radius s) u0 u1 u2 /\
    n = disp v /\ n <= radius s /\ py_tape g' = py_tape g.
Proof.
  unfold random_vector. split.
  - destruct (random_vector_loop _ _) as [[[v0 n0] rest]|] eqn:Hloop;
      [|discriminate].
    intros [= -> -> <-]. simpl.
    destruct (random_vector_loop_Some _ _ _ _ _ Hloop)
      as (pre & u0 & u1 & u2 & ? & ? & ? & ? & ?).
    by exists pre, u0, u1, u2.
  - intros (pre & u0 & u1 & u2 & -> & Hrej & -> & -> & Hle & Hpy).
    rewrite random_vector_loop_accepts by done.
    destruct g' as [np' py']. simpl in *. by subst.
Qed.

Lemma random_vector_not_Raised s g e : random_vector s g <> Raised e.
Proof.
  unfold random_vector.
  by destruct (random_vector_loop _ _) as [[[v0 n0] rest]|].
Qed.

Lemma random_vector_supplies s g v n g' :
  random_vector s g = Done (v, n) g' ->
  supplies (radius s) 1 (np_tape g) (np_tape g').
Proof.
  intros (pre & u0 & u1 & u2 & -> & Hrej & -> & -> & Hle & _)
    %random_vector_Done_iff.
  constructor; [done..|constructor].
Qed.

Lemma supplies_random_vector s np py k rest :
  supplies (radius s) (S k) np rest ->
  exists v n mid,
    random_vector s (Rng np py) = Done (v, n) (Rng mid py) /\
    supplies (radius s) k mid rest.
Proof.
  inversion 1 as [|k' pre u0 u1 u2 mid rest' Hrej Hacc Hmore]; subst.
  eexists _, _, mid. split; [|done].
  apply random_vector_Done_iff. exists pre, u0, u1, u2. by simpl.
Qed.

Lemma supplies_trans radius j k a b c :
  supplies radius j a b -> supplies radius k b c ->
  supplies radius (j + k) a c.
Proof.
  induction 1; simpl; [done|]. intros Hk. constructor; auto.
Qed.

(** ** Construction *)

Lemma set_pairs_id s : set_pairs s (pairs s) = s.
Proof. by destruct s. Qed.

Lemma generate_pairs_loop_Done n : forall s g s' g',
  generate_pairs_loop n s g = Done s' g' ->
  exists new,
    s' = set_pairs s (pairs s ++ new) /\
    length new = n /\
    Forall pair_cached new /\
    Forall (pair_in_ball (radius s)) new /\
    supplies (radius s) (2 * n) (np_tape g) (np_tape g') /\
    py_tape g' = py_tape g.
Proof.
  induction n as [|n IH]; intros s g s' g' Hrun.
  - inversion Hrun; subst. exists []. rewrite app_nil_r, set_pairs_id.
    repeat split; auto. constructor.
  - cbn [generate_pairs_loop] in Hrun.
    apply bind_Done in Hrun as ([v1 n1] & g1 & Hv1 & Hrun).
    apply bind_Done in Hrun as ([v2 n2] & g2 & Hv2 & Hrun).
    apply IH in Hrun as (new & -> & Hlen & Hc & Hb & Hsup & Hpy).
    pose proof (random_vector_supplies _ _ _ _ _ Hv1) as Hs1.
    pose proof (random_vector_supplies _ _ _ _ _ Hv2) as Hs2.
    apply random_vector_Done_iff in Hv1
      as (? & ? & ? & ? & _ & _ & _ & Hn1 & Hle1 & Hpy1).
    apply random_vector_Done_iff in Hv2
      as (? & ? & ? & ? & _ & _ & _ & Hn2 & Hle2 & Hpy2).
    exists (mkPair (mkElectron v1 n1) (mkElectron v2 n2) :: new).
    simpl in *. rewrite <- app_assoc. repeat split; auto.
    + constructor; [|done]. by split.
    + constructor; [|done]. unfold pair_in_ball, in_ball; simpl.
      split; congruence.
    + replace (S (n + S (n + 0))) with (1 + (1 + 2 * n))%nat by lia.
      eapply supplies_trans; [done|]. eapply supplies_trans; done.
    + congruence.
Qed.

Lemma generate_pairs_loop_supplied n : forall s np py rest,
  supplies (radius s) (2 * n) np rest ->
  exists s', generate_pairs_loop n s (Rng np py) = Done s' (Rng rest py).
Proof.
  induction n as [|n IH]; intros s np py rest Hsup.
  - inversion Hsup; subst. by exists s.
  - replace (2 * S n)%nat with (S (S (2 * n))) in Hsup by lia.
    apply (supplies_random_vector s np py) in Hsup
      as (v1 & n1 & mid1 & Hv1 & Hsup).
    apply (supplies_random_vector s mid1 py) in Hsup
      as (v2 & n2 & mid2 & Hv2 & Hsup).
    cbn [generate_pairs_loop]. unfold bind at 1. rewrite Hv1.
    unfold bind at 1. rewrite Hv2.
    by apply IH.
Qed.

Lemma generate_pairs_loop_not_Raised n : forall s g e,
  generate_pairs_loop n s g <> Raised e.
Proof.
  induction n as [|n IH]; intros s g e; [done|].
  cbn [generate_pairs_loop]. intros H.
  apply bind_Raised in H as [H|([v1 n1] & g1 & _ & H)].
  { by apply random_vector_not_Raised in H. }
  apply bind_Raised in H as [H|([v2 n2] & g2 & _ & H)].
  { by apply random_vector_not_Raised in H. }
  by apply IH in H.
Qed.

Lemma generate_pairs_loop_negative n s g :
  radius s < 0 -> generate_pairs_loop (S n) s g = Starved.
Proof.
  intros Hneg. cbn [generate_pairs_loop]. unfold bind at 1, random_vector.
  by rewrite random_vector_loop_negative.
Qed.

Lemma Qmc_init_unfold (n : Z) radius step_size charge g :
  (0 <= n)%Z ->
  Qmc_init n radius step_size charge g =
    generate_pairs_loop (Z.to_nat n)
      (mkQmc n [] radius step_size charge
             (replicate (Z.to_nat (2 * n)) 0) (replicate (Z.to_nat (2 * n)) 0)
             (replicate (Z.to_nat (2 * n)) 0)) g.
Proof.
  intros Hn. unfold Qmc_init, np_zeros, bind, lift, generate_pairs.
  by destruct (Z.ltb_spec (2 * n) 0); [lia|].
Qed.

(** The centre of the cube is always accepted when the radius is not
    negative, so a tape of draws [1/2] feeds the sampler indefinitely. *)
Lemma centre_accepted radius :
  0 <= radius ->
  disp (uniform_vec (- radius) radius (1/2) (1/2) (1/2)) <= radius.
Proof.
  intros Hr. unfold disp, uniform_vec, scale; simpl.
  replace (- radius + (radius - - radius) * (1 / 2)) with 0 by lra.
  replace (0 * (0 * 1) + 0 * (0 * 1) + 0 * (0 * 1)) with 0 by ring.
  by rewrite sqrt_0.
Qed.

Lemma supplies_centre radius k rest :
  0 <= radius ->
  supplies radius k (concat (replicate k [1/2; 1/2; 1/2]) ++ rest) rest.
Proof.
  intros Hr. induction k as [|k IH]; simpl; [constructor|].
  apply (supplies_S radius k [] (1/2) (1/2) (1/2)); auto using centre_accepted.
  constructor.
Qed.

Lemma Qmc_init_supplied (n : Z) radius step_size charge g rest :
  (0 <= n)%Z ->
  supplies radius (2 * Z.to_nat n) (np_tape g) rest ->
  exists s,
    Qmc_init n radius step_size charge g = Done s (Rng rest (py_tape g)) /\
    num_pairs s = n /\ length (pairs s) = Z.to_nat n.
Proof.
  intros Hn Hsup. rewrite Qmc_init_unfold by done.
  destruct g as [np py]; simpl in *.
  destruct (generate_pairs_loop_supplied _
              (mkQmc n [] radius step_size charge
                 (replicate (Z.to_nat (2 * n)) 0)
                 (replicate (Z.to_nat (2 * n)) 0)
                 (replicate (Z.to_nat (2 * n)) 0)) np py rest Hsup)
    as [s Hs].
  exists s. split; [done|].
  apply generate_pairs_loop_Done in Hs as (new & -> & Hlen & _). by simpl.
Qed.

(** C4, as the code has it: [Qmc.__init__] checks none of its parameters.
    It raises exactly when [num_pairs] is negative (the coordinate arrays
    cannot be allocated); with [num_pairs = 0] it succeeds whatever the
    radius; with at least one pair and a negative radius no sample is ever
    accepted and it does not return; and with [num_pairs >= 0] it succeeds as
    soon as the generator supplies [2 * num_pairs] accepted samples, which a
    non-negative radius always allows. *)
Theorem Qmc_init_outcome (n : Z) (radius step_size charge : R) (g : rng) :
  ((n < 0)%Z -> Qmc_init n radius step_size charge g = Raised ValueError) /\
  ((0 <= n)%Z -> forall e, Qmc_init n radius step_size charge g <> Raised e) /\
  (n = 0%Z ->
     Qmc_init n radius step_size charge g =
       Done (mkQmc 0 [] radius step_size charge [] [] []) g) /\
  ((0 < n)%Z -> radius < 0 ->
     Qmc_init n radius step_size charge g = Starved) /\
  ((0 <= n)%Z -> forall rest,
     supplies radius (2 * Z.to_nat n) (np_tape g) rest ->
     exists s,
       Qmc_init n radius step_size charge g = Done s (Rng rest (py_tape g)) /\
       num_pairs s = n /\ length (pairs s) = Z.to_nat n) /\
  ((0 <= n)%Z -> 0 <= radius -> forall rest,
     supplies radius (2 * Z.to_nat n)
       (concat (replicate (2 * Z.to_nat n) [1/2; 1/2; 1/2]) ++ rest) rest).
Proof.
  repeat split.
  - intros Hn. unfold Qmc_init, np_zeros, bind, lift.
    by destruct (Z.ltb_spec (2 * n) 0); [|lia].
  - intros Hn e. rewrite Qmc_init_unfold by done.
    apply generate_pairs_loop_not_Raised.
  - intros ->. by rewrite Qmc_init_unfold.
  - intros Hn Hneg. rewrite Qmc_init_unfold by lia.
    destruct (Z.to_nat n) as [|k] eqn:Hk; [lia|].
    by apply generate_pairs_loop_negative.
  - intros Hn rest Hsup. by apply Qmc_init_supplied.
  - intros _ Hr rest. by apply supplies_centre.
Qed.

(** C4 fails for a non-positive pair count and, separately, for a
    non-positive radius: both constructions succeed. *)
Lemma Qmc_init_accepts_nonpositive :
  Qmc_init 0 4 (1/2) (5/4) (Rng [] []) =
    Done (mkQmc 0 [] 4 (1/2) (5/4) [] [] []) (Rng [] []) /\
  exists s, Qmc_init 1 0 (1/2) (5/4) (Rng (replicate 6 (1/2)) []) =
    Done s (Rng [] []).
Proof.
  split; [by rewrite Qmc_init_unfold|].
  destruct (Qmc_init_supplied 1 0 (1/2) (5/4)
              (Rng (replicate 6 (1/2)) []) []) as (s & Hs & _);
    [lia | | by exists s].
  apply (supplies_centre 0 2 []). lra.
Qed.

(** ** The Metropolis update *)

Lemma update_body_at s done p rest g :
  pairs s = done ++ p :: rest ->
  update_body s (length done) g =
    match np_tape g, py_tape g with
    | a0 :: a1 :: a2 :: b0 :: b1 :: b2 :: np', u :: py' =>
        Done (set_pairs s
                (done ++
                 metropolis (charge s) p
                   (uniform_vec (- step_size s) (step_size s) a0 a1 a2)
                   (uniform_vec (- step_size s) (step_size s) b0 b1 b2) u
                 :: rest))
             (Rng np' py')
    | _, _ => Starved
    end.
Proof.
  intros Hps. unfold update_body, bind, lift, getitem.
  rewrite Hps, list_lookup_middle by done.
  unfold np_random_uniform3 at 1.
  destruct g as [[|a0 [|a1 [|a2 np]]] py]; simpl; try done.
  unfold np_random_uniform3.
  destruct np as [|b0 [|b1 [|b2 np']]]; simpl; try done.
  unfold random_random. destruct py as [|u py']; simpl; [done|].
  unfold metropolis, acceptance_ratio, move_accept, trial_pair, disp; simpl.
  destruct (Rgt_dec _ u); unfold ret; f_equal.
  - f_equal. rewrite insert_app_r_alt by done. by rewrite Nat.sub_diag.
  - by rewrite <- Hps, set_pairs_id.
Qed.

Lemma update_loop_sweep : forall rest s done g,
  pairs s = done ++ rest ->
  for_rangeM update_body (length done) (length rest) s g =
    match metropolis_sweep (charge s) (step_size s) rest
                           (np_tape g) (py_tape g) with
    | Some (rest', np', py') => Done (set_pairs s (done ++ rest')) (Rng np' py')
    | None => Starved
    end.
Proof.
  induction rest as [|p rest IH]; intros s done g Hps.
  - simpl. unfold ret. rewrite <- Hps, set_pairs_id. by destruct g.
  - cbn [length for_rangeM metropolis_sweep]. unfold bind.
    rewrite (update_body_at s done p rest g Hps).
    destruct (np_tape g) as [|a0 [|a1 [|a2 [|b0 [|b1 [|b2 np']]]]]]; try done.
    destruct (py_tape g) as [|u py']; [done|].
    set (p' := metropolis _ _ _ _ _).
    specialize (IH (set_pairs s (done ++ p' :: rest)) (done ++ [p'])
                   (Rng np' py')).
    rewrite length_app in IH. simpl in IH.
    replace (length done + 1)%nat with (S (length done)) in IH by lia.
    rewrite IH by (by rewrite <- app_assoc).
    destruct (metropolis_sweep _ _ rest np' py') as [[[rest' np''] py'']|];
      [|done].
    by rewrite <- app_assoc.
Qed.

(** [update] is one sweep of [metropolis] over the pairs. *)
Lemma update_sweep s g :
  num_pairs s = Z.of_nat (length (pairs s)) ->
  update s g =
    match metropolis_sweep (charge s) (step_size s) (pairs s)
                           (np_tape g) (py_tape g) with
    | Some (ps', np', py') => Done (set_pairs s ps') (Rng np' py')
    | None => Starved
    end.
Proof.
  intros Hn. unfold update. rewrite Hn, Nat2Z.id.
  exact (update_loop_sweep (pairs s) s [] g eq_refl).
Qed.

Lemma metropolis_sweep_length q step : forall ps np py ps' np' py',
  metropolis_sweep q step ps np py = Some (ps', np', py') ->
  length ps' = length ps /\
  np = take (6 * length ps) np ++ np' /\
  py = take (length ps) py ++ py'.
Proof.
  induction ps as [|p ps IH]; intros np py ps' np' py' H.
  - by inversion H; subst.
  - cbn [metropolis_sweep] in H.
    destruct np as [|a0 [|a1 [|a2 [|b0 [|b1 [|b2 np0]]]]]]; try done.
    destruct py as [|u py0]; [done|].
    destruct (metropolis_sweep q step ps np0 py0) as [[[ps1 np1] py1]|] eqn:E;
      [|done].
    inversion H; subst. apply IH in E as (Hl & Hnp & Hpy).
    replace (6 * length (p :: ps))%nat with (S (S (S (S (S (S (6 * length ps)))))))
      by (simpl; lia).
    simpl in *. rewrite Hl. repeat split; congruence.
Qed.

Lemma metropolis_sweep_enough q step : forall ps np py,
  (6 * length ps <= length np)%nat -> (length ps <= length py)%nat ->
  exists ps', metropolis_sweep q step ps np py =
    Some (ps', drop (6 * length ps) np, drop (length ps) py).
Proof.
  induction ps as [|p ps IH]; intros np py Hnp Hpy.
  - by exists [].
  - cbn [metropolis_sweep].
    replace (6 * length (p :: ps))%nat with (S (S (S (S (S (S (6 * length ps)))))))
      in * by (simpl; lia).
    destruct np as [|a0 [|a1 [|a2 [|b0 [|b1 [|b2 np0]]]]]];
      simpl in Hnp; try lia.
    destruct py as [|u py0]; simpl in Hpy; [lia|].
    destruct (IH np0 py0) as [ps' ->]; [lia..|].
    eexists. by simpl.
Qed.

Lemma metropolis_sweep_lookup q step : forall ps np py ps' np' py' j p,
  metropolis_sweep q step ps np py = Some (ps', np', py') ->
  ps !! j = Some p ->
  exists a0 a1 a2 b0 b1 b2 u,
    np !! (6 * j)%nat = Some a0 /\ np !! (6 * j + 1)%nat = Some a1 /\
    np !! (6 * j + 2)%nat = Some a2 /\ np !! (6 * j + 3)%nat = Some b0 /\
    np !! (6 * j + 4)%nat = Some b1 /\ np !! (6 * j + 5)%nat = Some b2 /\
    py !! j = Some u /\
    ps' !! j =
      Some (metropolis q p (uniform_vec (- step) step a0 a1 a2)
                       (uniform_vec (- step) step b0 b1 b2) u).
Proof.
  induction ps as [|p0 ps IH]; intros np py ps' np' py' j p H Hj; [done|].
  cbn [metropolis_sweep] in H.
  destruct np as [|a0 [|a1 [|a2 [|b0 [|b1 [|b2 np0]]]]]]; try done.
  destruct py as [|u py0]; [done|].
  destruct (metropolis_sweep q step ps np0 py0) as [[[ps1 np1] py1]|] eqn:E;
    [|done].
  inversion H; subst. destruct j as [|j].
  - inversion Hj; subst. by exists a0, a1, a2, b0, b1, b2, u.
  - simpl in Hj.
    destruct (IH _ _ _ _ _ _ _ E Hj)
      as (c0' & c1' & c2' & d0 & d1 & d2 & w & ? & ? & ? & ? & ? & ? & ? & ?).
    exists c0', c1', c2', d0, d1, d2, w.
    replace (6 * S j)%nat with (S (S (S (S (S (S (6 * j))))))) by lia.
    by simpl.
Qed.

(** ** Evaluating the samplers on given draws *)

Lemma random_vector_first s u0 u1 u2 rest py v :
  uniform_vec (- radius s) (radius s) u0 u1 u2 = v ->
  disp v <= radius s ->
  random_vector s (Rng (u0 :: u1 :: u2 :: rest) py) =
    Done (v, disp v) (Rng rest py).
Proof.
  intros <- Hle. apply random_vector_Done_iff. exists [], u0, u1, u2.
  simpl. repeat split; auto. constructor.
Qed.

Lemma uniform_vec_centre radius :
  uniform_vec (- radius) radius (1/2) (1/2) (1/2) = origin.
Proof. unfold uniform_vec, scale, origin. f_equal; lra. Qed.

Lemma uniform_vec_face radius :
  uniform_vec (- radius) radius 0 (1/2) (1/2) = Vec3 (- radius) 0 0.
Proof. unfold uniform_vec, scale. f_equal; lra. Qed.

Lemma disp_axis x : disp (Vec3 x 0 0) = Rabs x.
Proof.
  unfold disp; simpl. replace (x * (x * 1) + 0 * (0 * 1) + 0 * (0 * 1))
    with (Rsqr x) by (unfold Rsqr; ring).
  apply sqrt_Rsqr_abs.
Qed.

Lemma disp_origin : disp origin = 0.
Proof. unfold origin. rewrite disp_axis. apply Rabs_R0. Qed.

Lemma vec_add_origin_l v : vec_add origin v = v.
Proof. destruct v. unfold vec_add, origin; simpl. f_equal; lra. Qed.

Lemma sim_origin_constructed :
  Qmc_init 1 1 1 1 (Rng (replicate 6 (1/2)) []) = Done sim_origin (Rng [] []).
Proof.
  rewrite Qmc_init_unfold by lia.
  change (Z.to_nat 1) with 1%nat. cbn [generate_pairs_loop replicate].
  unfold bind at 1.
  rewrite (random_vector_first _ _ _ _ _ _ origin);
    [|apply uniform_vec_centre | simpl; rewrite disp_origin; lra].
  unfold bind at 1.
  rewrite (random_vector_first _ _ _ _ _ _ origin);
    [|apply uniform_vec_centre | simpl; rewrite disp_origin; lra].
  rewrite disp_origin. reflexivity.
Qed.

(** ** The cached norm *)

(** Construction leaves every cached norm equal to the norm of its
    position, and every electron inside the ball. *)
Lemma Qmc_init_cached n rad step q g s g' :
  Qmc_init n rad step q g = Done s g' ->
  Forall pair_cached (pairs s) /\ Forall (pair_in_ball rad) (pairs s) /\
  well_formed s /\ radius s = rad.
Proof.
  intros Hrun. destruct (Z.ltb_spec n 0) as [Hneg|Hn].
  { unfold Qmc_init, np_zeros, bind, lift in Hrun.
    by destruct (Z.ltb_spec (2 * n) 0); [|lia]. }
  rewrite Qmc_init_unfold in Hrun by done.
  apply generate_pairs_loop_Done in Hrun as (new & -> & Hlen & Hc & Hb & _).
  unfold well_formed; simpl. rewrite Hlen, !length_replicate.
  repeat split; auto; lia.
Qed.

Lemma metropolis_cached q p d1 d2 u :
  pair_cached p -> pair_cached (metropolis q p d1 d2 u).
Proof.
  intros Hp. unfold metropolis. by destruct (Rgt_dec _ u).
Qed.

Lemma metropolis_sweep_cached q step : forall ps np py ps' np' py',
  metropolis_sweep q step ps np py = Some (ps', np', py') ->
  Forall pair_cached ps -> Forall pair_cached ps'.
Proof.
  induction ps as [|p ps IH]; intros np py ps' np' py' H Hc.
  - by inversion H.
  - cbn [metropolis_sweep] in H.
    destruct np as [|a0 [|a1 [|a2 [|b0 [|b1 [|b2 np0]]]]]]; try done.
    destruct py as [|u py0]; [done|].
    destruct (metropolis_sweep q step ps np0 py0) as [[[ps1 np1] py1]|] eqn:E;
      [|done].
    inversion H; subst. inversion Hc; subst.
    constructor; [by apply metropolis_cached | by eapply IH].
Qed.

(** [update] keeps the cached norms in step with the positions. *)
Lemma update_cached s g s' g' :
  num_pairs s = Z.of_nat (length (pairs s)) ->
  Forall pair_cached (pairs s) ->
  update s g = Done s' g' ->
  Forall pair_cached (pairs s').
Proof.
  intros Hn Hc Hrun. rewrite update_sweep in Hrun by done.
  destruct (metropolis_sweep _ _ _ _ _) as [[[ps' np'] py']|] eqn:E; [|done].
  inversion Hrun; subst. simpl. by eapply metropolis_sweep_cached.
Qed.

(** C1 at [reset]: from the state [Qmc(1, 1, 1, 1)] with both electrons on
    the nucleus, where every cached norm is right, [reset()] with the
    samples [(0, 0, 0)] and [(-1, 0, 0)] leaves electron 1 at [(-1, 0, 0)]
    with cached norm [0] and electron 2 at its old position with cached
    norm [1]: neither cache is the norm of its position. *)
Theorem reset_desynchronises_norm :
  Forall pair_cached (pairs sim_origin) /\
  reset sim_origin (Rng [1/2; 1/2; 1/2; 0; 1/2; 1/2] []) =
    Done (set_pairs sim_origin
            [mkPair (mkElectron (Vec3 (-1) 0 0) 0) (mkElectron origin 1)])
         (Rng [] []) /\
  ~ cached (mkElectron (Vec3 (-1) 0 0) 0) /\
  ~ cached (mkElectron origin 1).
Proof.
  assert (H1 : Rabs (-1) = 1).
  { rewrite Rabs_left; lra. }
  split; [|split; [|split]].
  - repeat constructor; unfold cached; simpl; by rewrite disp_origin.
  - unfold reset, sim_origin. cbn [pairs reset_loop]. unfold bind at 1 2.
    unfold reset_pair. unfold bind at 1.
    rewrite (random_vector_first _ _ _ _ _ _ origin);
      [|apply uniform_vec_centre | simpl; rewrite disp_origin; lra].
    unfold bind at 1.
    rewrite (random_vector_first _ _ _ _ _ _ (Vec3 (-1) 0 0));
      [|apply (uniform_vec_face 1) | simpl; rewrite disp_axis; lra].
    rewrite disp_origin, disp_axis, H1. reflexivity.
  - unfold cached; simpl. rewrite disp_axis, H1. lra.
  - unfold cached; simpl. rewrite disp_origin. lra.
Qed.

(** C2: in a call of [update] that returns, pair [j] is treated as follows.
    Six draws of numpy's generator give two displacements whose coordinates
    lie in [[-step_size, step_size]]; they are added to the two positions to
    form the trial positions [t1], [t2].  One draw [u] in [[0,1)] of Python's
    generator is compared with [A = exp(2 q (r1 + r2 - |t1| - |t2|))], where
    [r1], [r2] are the cached norms.  If [A > u] both electrons take their
    trial position and its norm; otherwise the pair is exactly as before. *)
Theorem update_metropolis_step (s s' : Qmc) (g g' : rng) (j : nat) (p : Pair) :
  num_pairs s = Z.of_nat (length (pairs s)) ->
  0 <= step_size s ->
  valid_rng g ->
  update s g = Done s' g' ->
  pairs s !! j = Some p ->
  exists a0 a1 a2 b0 b1 b2 u,
    np_tape g !! (6 * j)%nat = Some a0 /\
    np_tape g !! (6 * j + 1)%nat = Some a1 /\
    np_tape g !! (6 * j + 2)%nat = Some a2 /\
    np_tape g !! (6 * j + 3)%nat = Some b0 /\
    np_tape g !! (6 * j + 4)%nat = Some b1 /\
    np_tape g !! (6 * j + 5)%nat = Some b2 /\
    py_tape g !! j = Some u /\
    let d1 := uniform_vec (- step_size s) (step_size s) a0 a1 a2 in
    let d2 := uniform_vec (- step_size s) (step_size s) b0 b1 b2 in
    let t1 := vec_add (r (e1 p)) d1 in
    let t2 := vec_add (r (e2 p)) d2 in
    let A := exp (2 * charge s *
                  (norm (e1 p) + norm (e2 p) - disp t1 - disp t2)) in
    in_step (step_size s) d1 /\ in_step (step_size s) d2 /\
    0 <= u < 1 /\
    (A > u ->
       pairs s' !! j =
         Some (mkPair (mkElectron t1 (disp t1)) (mkElectron t2 (disp t2)))) /\
    (~ A > u -> pairs s' !! j = Some p).
Proof.
  intros Hn Hstep [Hnp Hpy] Hrun Hj.
  rewrite update_sweep in Hrun by done.
  destruct (metropolis_sweep _ _ _ _ _) as [[[ps' np'] py']|] eqn:E; [|done].
  inversion Hrun; subst; clear Hrun.
  destruct (metropolis_sweep_lookup _ _ _ _ _ _ _ _ _ _ E Hj)
    as (a0 & a1 & a2 & b0 & b1 & b2 & u
        & Ha0 & Ha1 & Ha2 & Hb0 & Hb1 & Hb2 & Hu & Hp').
  exists a0, a1, a2, b0, b1, b2, u.
  repeat (split; [done|]).
  assert (Hdraw : forall i x, np_tape g !! i = Some x -> unit_draw x).
  { intros i x Hx. exact (Forall_lookup_1 unit_draw _ _ _ Hnp Hx). }
  assert (Hu' : unit_draw u).
  { exact (Forall_lookup_1 unit_draw _ _ _ Hpy Hu). }
  cbv zeta. split; [|split; [|split; [|split]]].
  - apply uniform_vec_in_cube; eauto.
  - apply uniform_vec_in_cube; eauto.
  - exact Hu'.
  - intros HA. simpl. rewrite Hp'. unfold metropolis, acceptance_ratio.
    simpl. by destruct (Rgt_dec _ u).
  - intros HA. simpl. rewrite Hp'. unfold metropolis, acceptance_ratio.
    simpl. by destruct (Rgt_dec _ u).
Qed.

(** [update] returns as soon as both tapes are long enough, and changes
    nothing but the pairs. *)
Lemma update_enough s g :
  num_pairs s = Z.of_nat (length (pairs s)) ->
  (6 * length (pairs s) <= length (np_tape g))%nat ->
  (length (pairs s) <= length (py_tape g))%nat ->
  exists ps',
    update s g =
      Done (set_pairs s ps')
           (Rng (drop (6 * length (pairs s)) (np_tape g))
                (drop (length (pairs s)) (py_tape g))) /\
    length ps' = length (pairs s).
Proof.
  intros Hn Hnp Hpy. rewrite update_sweep by done.
  destruct (metropolis_sweep_enough (charge s) (step_size s) (pairs s)
              (np_tape g) (py_tape g) Hnp Hpy) as [ps' E].
  rewrite E. exists ps'. split; [done|].
  by apply metropolis_sweep_length in E as [? _].
Qed.

Lemma update_not_Raised s g e :
  num_pairs s = Z.of_nat (length (pairs s)) -> update s g <> Raised e.
Proof.
  intros Hn. rewrite update_sweep by done.
  by destruct (metropolis_sweep _ _ _ _ _) as [[[ps' np'] py']|].
Qed.

Lemma update_metropolis_step_witness :
  exists s',
    update sim_origin (Rng [0; 1/2; 1/2; 1/2; 1/2; 1/2] [0]) =
      Done s' (Rng [] []) /\
    pairs s' !! 0%nat =
      Some (trial_pair (mkPair (mkElectron origin 0) (mkElectron origin 0))
                       (uniform_vec (- 1) 1 0 (1/2) (1/2))
                       (uniform_vec (- 1) 1 (1/2) (1/2) (1/2))).
Proof.
  destruct (update_enough sim_origin (Rng [0; 1/2; 1/2; 1/2; 1/2; 1/2] [0]))
    as (ps' & Hrun & _); [reflexivity | simpl; lia | simpl; lia |].
  simpl in Hrun. exists (set_pairs sim_origin ps'). split; [exact Hrun|].
  destruct (update_metropolis_step sim_origin (set_pairs sim_origin ps')
              (Rng [0; 1/2; 1/2; 1/2; 1/2; 1/2] [0]) (Rng [] []) 0
              (mkPair (mkElectron origin 0) (mkElectron origin 0)))
    as (a0 & a1 & a2 & b0 & b1 & b2 & u & Ha0 & Ha1 & Ha2 & Hb0 & Hb1 & Hb2
        & Hu & H).
  - reflexivity.
  - simpl. lra.
  - split; repeat constructor; unfold unit_draw; lra.
  - exact Hrun.
  - reflexivity.
  - simpl in Ha0, Ha1, Ha2, Hb0, Hb1, Hb2, Hu.
    injection Ha0 as <-. injection Ha1 as <-. injection Ha2 as <-.
    injection Hb0 as <-. injection Hb1 as <-. injection Hb2 as <-.
    injection Hu as <-.
    destruct H as (_ & _ & _ & Hacc & _). apply Hacc. apply exp_pos.
Defined.

(** A run of the sampler with one rejected round: the corner
    [(-1, -1, -1)] of the cube is outside the unit ball, the face centre
    [(-1, 0, 0)] is on it. *)
Lemma random_vector_sample_run :
  random_vector sim_origin (Rng [0; 0; 0; 0; 1/2; 1/2] []) =
    Done (Vec3 (-1) 0 0, 1) (Rng [] []).
Proof.
  apply random_vector_Done_iff. exists [0; 0; 0], 0, (1/2), (1/2).
  assert (H1 : Rabs (-1) = 1) by (rewrite Rabs_left; lra).
  simpl. rewrite (uniform_vec_face 1), disp_axis, H1.
  repeat split; try lra.
  constructor; [|constructor].
  unfold disp, uniform_vec, scale; simpl.
  intros Hle. assert (Hlt : sqrt 1 < sqrt 3) by (apply sqrt_lt_1_alt; lra).
  match type of Hle with sqrt ?x <= _ => replace x with 3 in Hle by lra end.
  rewrite sqrt_1 in Hlt. lra.
Qed.

Lemma random_vector_in_ball_witness :
  in_cube 1 (Vec3 (-1) 0 0) /\ 1 = disp (Vec3 (-1) 0 0) /\ 1 <= 1.
Proof.
  destruct (random_vector_in_ball sim_origin
              (Rng [0; 0; 0; 0; 1/2; 1/2] []) (Rng [] []) (Vec3 (-1) 0 0) 1)
    as (_ & Hcube & Hn & Hle & _).
  - repeat constructor; unfold unit_draw; lra.
  - exact random_vector_sample_run.
  - exact (conj Hcube (conj Hn Hle)).
Defined.

(** ** The energy *)

Lemma np_add_finite a b : is_finite (np_add a b) <-> is_finite a /\ is_finite b.
Proof. destruct a, b; simpl; tauto. Qed.

Lemma np_div_finite x y : is_finite (np_div (Fin x) (Fin y)) <-> y <> 0.
Proof.
  split.
  - intros H ->. by apply np_div_zero_not_finite in H.
  - intros Hy. by rewrite np_div_Fin.
Qed.

Lemma np_div_finite_l a y : y <> 0 -> is_finite (np_div a (Fin y)) <-> is_finite a.
Proof.
  intros Hy. destruct a; simpl; try tauto.
  - by destruct (Req_dec_T y 0).
  - by destruct (Rlt_dec y 0).
  - by destruct (Rlt_dec y 0).
Qed.

Lemma pow_overflow_large : 1024 <= pow_overflow.
Proof.
  unfold pow_overflow. change (2 ^ 1024) with (2 ^ (970 + 54)).
  rewrite pow_add.
  assert (H10 : 2 ^ 10 <= 2 ^ 970) by (apply Rle_pow; [lra|lia]).
  assert (H1 : 2 ^ 1 <= 2 ^ 54) by (apply Rle_pow; [lra|lia]).
  replace (2 ^ 10) with 1024 in H10 by (simpl; lra).
  replace (2 ^ 1) with 2 in H1 by (simpl; lra).
  nra.
Qed.



Lemma py_pow2_Ok x : x ^ 2 < pow_overflow -> py_pow2 x = Ok (x ^ 2).
Proof. intros H. unfold py_pow2. destruct (Rle_dec pow_overflow (x ^ 2)); [lra|done]. Qed.

Lemma py_pow2_overflow x :
  pow_overflow <= x ^ 2 -> py_pow2 x = Raise OverflowError.
Proof. intros H. unfold py_pow2. by destruct (Rle_dec pow_overflow (x ^ 2)). Qed.

Lemma energy_Ok p q :
  q ^ 2 < pow_overflow -> energy p q = Ok (local_energy64 p q).
Proof. intros H. unfold energy. cbv zeta. by rewrite py_pow2_Ok. Qed.

Lemma energy_overflow p q :
  pow_overflow <= q ^ 2 -> energy p q = Raise OverflowError.
Proof. intros H. unfold energy. cbv zeta. by rewrite py_pow2_overflow. Qed.

Lemma local_energy64_finite_iff p q :
  is_finite (local_energy64 p q) <-> nonsingular p.
Proof.
  unfold local_energy64, nonsingular.
  rewrite !np_add_finite, !np_div_finite. simpl. tauto.
Qed.

Lemma local_energy64_nonsingular p q :
  nonsingular p -> local_energy64 p q = Fin (local_energy p q).
Proof.
  intros (H1 & H2 & H12). unfold local_energy64, local_energy.
  by rewrite !np_div_Fin.
Qed.

Lemma get_dist_refl v : get_dist v v = 0.
Proof.
  unfold get_dist.
  replace ((c0 v - c0 v) ^ 2 + (c1 v - c1 v) ^ 2 + (c2 v - c2 v) ^ 2)
    with 0 by ring.
  apply sqrt_0.
Qed.

Lemma singular_not_nonsingular p : singular p -> ~ nonsingular p.
Proof.
  intros [H|[H|H]] (H1 & H2 & H12); [done | done |].
  rewrite H in H12. by rewrite get_dist_refl in H12.
Qed.

Lemma sum_energy_Ok q : q ^ 2 < pow_overflow -> forall ps a,
  sum_energy a ps q =
    Ok (foldl np_add a (map (fun p => local_energy64 p q) ps)).
Proof.
  intros Hq. induction ps as [|p ps IH]; intros a; [done|].
  cbn [sum_energy map foldl]. rewrite energy_Ok by done. cbn [rbind].
  apply IH.
Qed.

Lemma sum_energy_overflow q ps a :
  pow_overflow <= q ^ 2 -> ps <> [] ->
  sum_energy a ps q = Raise OverflowError.
Proof.
  intros Hq Hne. destruct ps as [|p ps]; [done|].
  cbn [sum_energy]. by rewrite energy_overflow.
Qed.

Lemma foldl_np_add_finite : forall l a,
  is_finite (foldl np_add a l) <-> is_finite a /\ Forall is_finite l.
Proof.
  induction l as [|x l IH]; intros a; simpl.
  - split; [by intros H; split | tauto].
  - rewrite IH, np_add_finite, Forall_cons. tauto.
Qed.

Lemma foldl_np_add_sum q : forall ps x,
  Forall nonsingular ps ->
  foldl np_add (Fin x) (map (fun p => local_energy64 p q) ps) =
    Fin (x + Rsum (map (fun p => local_energy p q) ps)).
Proof.
  induction ps as [|p ps IH]; intros x Hns; simpl.
  - f_equal. lra.
  - inversion Hns; subst. rewrite local_energy64_nonsingular by done. simpl.
    rewrite IH by done. f_equal. lra.
Qed.

(** On an ensemble of the constructor's shape with at least one pair and a
    charge whose square is in range, [avg_energy] returns numpy's mean of
    the pair energies. *)
Lemma avg_energy_Ok s :
  num_pairs s = Z.of_nat (length (pairs s)) -> pairs s <> [] ->
  charge s ^ 2 < pow_overflow ->
  avg_energy s =
    Ok (np_average (map (fun p => local_energy64 p (charge s)) (pairs s))).
Proof.
  intros Hn Hne Hq. unfold avg_energy. rewrite sum_energy_Ok by done.
  cbn [rbind]. unfold np_average. rewrite length_map, Hn, <- INR_IZR_INZ.
  by destruct (pairs s).
Qed.

Lemma avg_energy_overflow s :
  pairs s <> [] -> pow_overflow <= charge s ^ 2 ->
  avg_energy s = Raise OverflowError.
Proof.
  intros Hne Hq. unfold avg_energy. by rewrite sum_energy_overflow.
Qed.

Lemma INR_length_nonzero {A} (l : list A) : l <> [] -> INR (length l) <> 0.
Proof.
  intros Hne. destruct l as [|a l]; [done|].
  apply not_0_INR. simpl. lia.
Qed.

(** Over the reals: where no divisor is zero the mean is the real number
    [mean_energy]. *)
Lemma avg_energy_nonsingular s :
  num_pairs s = Z.of_nat (length (pairs s)) ->
  pairs s <> [] ->
  charge s ^ 2 < pow_overflow ->
  Forall nonsingular (pairs s) ->
  avg_energy s = Ok (Fin (mean_energy (pairs s) (charge s))).
Proof.
  intros Hn Hne Hq Hns. rewrite avg_energy_Ok by done. unfold np_average.
  rewrite foldl_np_add_sum by done. rewrite length_map.
  rewrite np_div_Fin by (by apply INR_length_nonzero).
  unfold mean_energy. do 3 f_equal. lra.
Qed.


Lemma small_square x : x ^ 2 < 1024 -> x ^ 2 < pow_overflow.
Proof. pose proof pow_overflow_large. lra. Qed.

Lemma get_dist_axis x y : get_dist (Vec3 x 0 0) (Vec3 y 0 0) = Rabs (y - x).
Proof.
  unfold get_dist; simpl.
  replace ((y - x) * ((y - x) * 1) + (0 - 0) * ((0 - 0) * 1)
           + (0 - 0) * ((0 - 0) * 1)) with (Rsqr (y - x))
    by (unfold Rsqr; ring).
  apply sqrt_Rsqr_abs.
Qed.

Lemma sim_axis_dist :
  get_dist (Vec3 1 0 0) (Vec3 (201/200) 0 0) = 1/200.
Proof. rewrite get_dist_axis, Rabs_right; lra. Qed.

Lemma sim_axis_nonsingular : Forall nonsingular (pairs sim_axis).
Proof.
  repeat constructor; simpl; try lra. rewrite sim_axis_dist. lra.
Qed.

Lemma sim_axis_mean_energy : mean_energy (pairs sim_axis) (charge sim_axis) = 196.
Proof.
  unfold mean_energy, local_energy; simpl. rewrite sim_axis_dist.
  unfold Rsum; simpl. field.
Qed.






(** ** Calibration *)

Lemma vec_add_origin_r v : vec_add v origin = v.
Proof. destruct v. unfold vec_add, origin; simpl. f_equal; lra. Qed.

Lemma uniform_vec_zero a b c : uniform_vec (- 0) 0 a b c = origin.
Proof. unfold uniform_vec, scale, origin. f_equal; lra. Qed.

Lemma trial_pair_origin p : pair_cached p -> trial_pair p origin origin = p.
Proof.
  destruct p as [[v1 n1] [v2 n2]]. unfold pair_cached, cached, trial_pair.
  simpl. intros [-> ->]. by rewrite !vec_add_origin_r.
Qed.

(** With step size [0] a pair with the right cached norms is left as it is,
    accepted or not. *)
Lemma metropolis_still q p a0 a1 a2 b0 b1 b2 u :
  pair_cached p ->
  metropolis q p (uniform_vec (- 0) 0 a0 a1 a2) (uniform_vec (- 0) 0 b0 b1 b2) u
    = p.
Proof.
  intros Hp. unfold metropolis. rewrite !uniform_vec_zero.
  rewrite trial_pair_origin by done. by destruct (Rgt_dec _ u).
Qed.

Lemma metropolis_sweep_still q : forall ps np py,
  Forall pair_cached ps ->
  (6 * length ps <= length np)%nat -> (length ps <= length py)%nat ->
  metropolis_sweep q 0 ps np py =
    Some (ps, drop (6 * length ps) np, drop (length ps) py).
Proof.
  induction ps as [|p ps IH]; intros np py Hc Hnp Hpy; [done|].
  cbn [metropolis_sweep].
  replace (6 * length (p :: ps))%nat with (S (S (S (S (S (S (6 * length ps)))))))
    in * by (simpl; lia).
  destruct np as [|a0 [|a1 [|a2 [|b0 [|b1 [|b2 np0]]]]]];
    simpl in Hnp; try lia.
  destruct py as [|u py0]; simpl in Hpy; [lia|].
  inversion Hc; subst. rewrite IH by (done || lia).
  by rewrite metropolis_still.
Qed.

Lemma update_still s g :
  num_pairs s = Z.of_nat (length (pairs s)) ->
  step_size s = 0 ->
  Forall pair_cached (pairs s) ->
  (6 * length (pairs s) <= length (np_tape g))%nat ->
  (length (pairs s) <= length (py_tape g))%nat ->
  update s g = Done s (Rng (drop (6 * length (pairs s)) (np_tape g))
                           (drop (length (pairs s)) (py_tape g))).
Proof.
  intros Hn Hstep Hc Hnp Hpy. rewrite update_sweep, Hstep by done.
  rewrite metropolis_sweep_still by done. by rewrite set_pairs_id.
Qed.

(** A window over a state that [update] leaves alone: every sample is the
    same energy. *)
Lemma window_still s v : forall k i buffer ts np py,
  avg_energy s = Ok v ->
  num_pairs s = Z.of_nat (length (pairs s)) ->
  step_size s = 0 ->
  Forall pair_cached (pairs s) ->
  (i + k <= length buffer)%nat ->
  (k * (6 * length (pairs s)) <= length np)%nat ->
  (k * length (pairs s) <= length py)%nat ->
  for_rangeM (window_body false) i k (s, buffer, ts) (Rng np py) =
    Done (s, fill i k v buffer, ts ++ replicate k v)
         (Rng (drop (k * (6 * length (pairs s))) np)
              (drop (k * length (pairs s)) py)).
Proof.
  intros k. induction k as [|k IH];
    intros i buffer ts np py Hv Hn Hstep Hc Hlen Hnp Hpy.
  - simpl. unfold ret. by rewrite app_nil_r.
  - cbn [for_rangeM]. unfold bind at 1. unfold window_body at 1.
    unfold bind at 1. rewrite Hv. unfold lift at 1.
    unfold bind at 1. unfold np_setitem.
    destruct (decide (i < length buffer)%nat) as [_|Hge]; [|lia].
    unfold lift at 1. unfold bind at 1.
    rewrite update_still by (done || simpl in *; lia).
    cbn [andb np_tape py_tape]. unfold ret at 1.
    rewrite IH; try done.
    + cbn [fill replicate]. rewrite !drop_drop.
      rewrite <- app_assoc. simpl.
      do 2 f_equal; f_equal; lia.
    + rewrite length_insert. lia.
    + rewrite length_drop. simpl in Hnp. lia.
    + rewrite length_drop. simpl in Hpy. lia.
Qed.

Lemma window_samples plotting : forall k i sim buffer ts g sim' buffer' ts' g',
  for_rangeM (window_body plotting) i k (sim, buffer, ts) g =
    Done (sim', buffer', ts') g' ->
  length ts' = (length ts + k)%nat.
Proof.
  induction k as [|k IH]; intros i sim buffer ts g sim' buffer' ts' g' H.
  - inversion H; subst. lia.
  - cbn [for_rangeM] in H.
    apply bind_Done in H as ([[sim1 buffer1] ts1] & g1 & Hbody & H).
    apply IH in H. rewrite H. clear H.
    unfold window_body in Hbody.
    apply bind_Done in Hbody as (v & g2 & _ & Hbody).
    apply bind_Done in Hbody as (b2 & g3 & _ & Hbody).
    apply bind_Done in Hbody as (s2 & g4 & _ & Hbody).
    destruct (plotting && (i mod 10 =? 0)%nat).
    + apply bind_Done in Hbody as (s3 & g5 & _ & Hbody).
      inversion Hbody; subst. rewrite length_app. simpl. lia.
    + inversion Hbody; subst. rewrite length_app. simpl. lia.
Qed.

(** C6, as the code has it: the first window decides at once.  If its mean
    is not below the sentinel [100.0] (it is larger, equal, or [nan]) the
    loop stops right after that window, with the [25] samples of that window
    only; it goes on to a second window exactly when the mean is below
    [100.0]. *)
Theorem calibrate_first_window (fuel : nat) (sim : Qmc) (plotting : bool)
    (g : rng) (sim1 : Qmc) (buffer1 ts1 : list float64) (g1 : rng) :
  for_rangeM (window_body plotting) 0 window_size
             (sim, replicate window_size (Fin 0), []) g =
    Done (sim1, buffer1, ts1) g1 ->
  length ts1 = 25%nat /\
  (np_lt (np_average buffer1) (Fin 100) = false ->
     calibrate_system (S fuel) sim plotting g = Done (sim1, ts1) g1) /\
  (np_lt (np_average buffer1) (Fin 100) = true ->
     calibrate_system (S fuel) sim plotting g =
       calibrate_loop fuel plotting sim1 buffer1 ts1 (np_average buffer1) g1).
Proof.
  intros Hwin. split; [|split].
  - by apply window_samples in Hwin.
  - intros Hlt. unfold calibrate_system. cbn [calibrate_loop].
    unfold bind. by rewrite Hwin, Hlt.
  - intros Hlt. unfold calibrate_system. cbn [calibrate_loop].
    unfold bind. by rewrite Hwin, Hlt.
Qed.

Lemma sim_axis_cached : Forall pair_cached (pairs sim_axis).
Proof.
  repeat constructor; unfold cached; simpl; rewrite disp_axis, Rabs_right; lra.
Qed.

Lemma sim_axis_avg_energy : avg_energy sim_axis = Ok (Fin 196).
Proof.
  rewrite avg_energy_nonsingular;
    [by rewrite sim_axis_mean_energy | done | done
    | apply small_square; simpl; lra | apply sim_axis_nonsingular].
Qed.

Lemma sim_axis_window :
  for_rangeM (window_body false) 0 window_size
             (sim_axis, replicate window_size (Fin 0), [])
             (Rng (replicate 300 (1/2)) (replicate 50 (1/2))) =
    Done (sim_axis, replicate 25 (Fin 196), replicate 25 (Fin 196))
         (Rng (replicate 150 (1/2)) (replicate 25 (1/2))).
Proof.
  rewrite (window_still sim_axis (Fin 196)).
  - reflexivity.
  - apply sim_axis_avg_energy.
  - reflexivity.
  - reflexivity.
  - apply sim_axis_cached.
  - rewrite length_replicate. unfold window_size. lia.
  - rewrite length_replicate. unfold window_size. simpl. lia.
  - rewrite length_replicate. unfold window_size. simpl. lia.
Qed.

Lemma foldl_np_add_replicate y : forall k x,
  foldl np_add (Fin x) (replicate k (Fin y)) = Fin (x + INR k * y).
Proof.
  induction k as [|k IH]; intros x.
  - simpl. f_equal. lra.
  - cbn [replicate foldl]. rewrite np_add_Fin, IH, S_INR. f_equal. lra.
Qed.

Lemma np_average_replicate k y :
  (0 < k)%nat -> np_average (replicate k (Fin y)) = Fin y.
Proof.
  intros Hk. unfold np_average.
  rewrite foldl_np_add_replicate, length_replicate.
  assert (HINR : INR k <> 0) by (apply not_0_INR; lia).
  rewrite np_div_Fin by done. f_equal. by field.
Qed.

Lemma np_lt_196_100 : np_lt (Fin 196) (Fin 100) = false.
Proof. simpl. destruct (Rlt_dec 196 100); [lra|done]. Qed.

(** [sim_axis] is what [Qmc(1, 4, 0, 2)] builds from the draws
    [5/8, 1/2, 1/2, 1001/1600, 1/2, 1/2]. *)
Lemma sim_axis_constructed :
  Qmc_init 1 4 0 2 (Rng [5/8; 1/2; 1/2; 1001/1600; 1/2; 1/2] []) =
    Done sim_axis (Rng [] []).
Proof.
  assert (Hv1 : uniform_vec (- 4) 4 (5/8) (1/2) (1/2) = Vec3 1 0 0).
  { unfold uniform_vec, scale. f_equal; lra. }
  assert (Hv2 : uniform_vec (- 4) 4 (1001/1600) (1/2) (1/2)
                = Vec3 (201/200) 0 0).
  { unfold uniform_vec, scale. f_equal; lra. }
  assert (Hd1 : disp (Vec3 1 0 0) = 1).
  { rewrite disp_axis, Rabs_right; lra. }
  assert (Hd2 : disp (Vec3 (201/200) 0 0) = 201/200).
  { rewrite disp_axis, Rabs_right; lra. }
  rewrite Qmc_init_unfold by lia.
  change (Z.to_nat 1) with 1%nat. cbn [generate_pairs_loop].
  unfold bind at 1.
  rewrite (random_vector_first _ _ _ _ _ _ (Vec3 1 0 0));
    [|exact Hv1 | simpl; rewrite Hd1; lra].
  unfold bind at 1.
  rewrite (random_vector_first _ _ _ _ _ _ (Vec3 (201/200) 0 0));
    [|exact Hv2 | simpl; rewrite Hd2; lra].
  rewrite Hd1, Hd2. reflexivity.
Qed.

(** C6 fails on [sim_axis], the ensemble [Qmc(1, 4, 0, 2)] built from the
    draws [5/8, 1/2, 1/2, 1001/1600, 1/2, 1/2]: the mean of the first window
    is [196], above the sentinel, and with fuel and draws for two windows the
    loop returns after the first one, with [25] samples and the draws of a
    second window left on the tapes. *)
Lemma calibrate_stops_after_first_window :
  Qmc_init 1 4 0 2 (Rng [5/8; 1/2; 1/2; 1001/1600; 1/2; 1/2] []) =
    Done sim_axis (Rng [] []) /\
  np_average (replicate 25 (Fin 196)) = Fin 196 /\
  100 < 196 /\
  calibrate_system 2 sim_axis false
      (Rng (replicate 300 (1/2)) (replicate 50 (1/2))) =
    Done (sim_axis, replicate 25 (Fin 196))
         (Rng (replicate 150 (1/2)) (replicate 25 (1/2))).
Proof.
  split; [apply sim_axis_constructed|].
  split; [apply np_average_replicate; lia|]. split; [lra|].
  unfold calibrate_system. cbn [calibrate_loop]. unfold bind.
  rewrite sim_axis_window.
  rewrite np_average_replicate by lia. by rewrite np_lt_196_100.
Qed.

Lemma calibrate_first_window_witness :
  calibrate_system 1 sim_axis false
      (Rng (replicate 300 (1/2)) (replicate 50 (1/2))) =
    Done (sim_axis, replicate 25 (Fin 196))
         (Rng (replicate 150 (1/2)) (replicate 25 (1/2))).
Proof.
  destruct (calibrate_first_window 0 sim_axis false
              (Rng (replicate 300 (1/2)) (replicate 50 (1/2)))
              sim_axis (replicate 25 (Fin 196)) (replicate 25 (Fin 196))
              (Rng (replicate 150 (1/2)) (replicate 25 (1/2)))
              sim_axis_window) as (_ & Hstop & _).
  apply Hstop. rewrite np_average_replicate by lia. exact np_lt_196_100.
Defined.

(** ** The ball is not kept by [update] *)

Lemma Rabs_m1 : Rabs (-1) = 1.
Proof. rewrite Rabs_left; lra. Qed.

Lemma sim_face_constructed :
  Qmc_init 1 1 1 1 (Rng [0; 1/2; 1/2; 1/2; 1/2; 1/2] []) =
    Done sim_face (Rng [] []).
Proof.
  rewrite Qmc_init_unfold by lia.
  change (Z.to_nat 1) with 1%nat. cbn [generate_pairs_loop].
  unfold bind at 1.
  rewrite (random_vector_first _ _ _ _ _ _ (Vec3 (-1) 0 0));
    [|apply (uniform_vec_face 1) | simpl; rewrite disp_axis, Rabs_m1; lra].
  unfold bind at 1.
  rewrite (random_vector_first _ _ _ _ _ _ origin);
    [|apply uniform_vec_centre | simpl; rewrite disp_origin; lra].
  rewrite disp_origin, disp_axis, Rabs_m1. reflexivity.
Qed.

Lemma sim_face_in_ball : Forall (pair_in_ball (radius sim_face)) (pairs sim_face).
Proof.
  constructor; [|constructor].
  split; unfold in_ball; cbn [sim_face radius e1 e2 r].
  - rewrite disp_axis, Rabs_m1. lra.
  - rewrite disp_origin. lra.
Qed.

Lemma metropolis_accept_zero q p d1 d2 :
  metropolis q p d1 d2 0 = trial_pair p d1 d2.
Proof.
  unfold metropolis. destruct (Rgt_dec _ 0) as [_|Hn]; [done|].
  destruct Hn. apply exp_pos.
Qed.

Lemma sim_face_update :
  update sim_face (Rng [0; 1/2; 1/2; 1/2; 1/2; 1/2] [0]) =
    Done (set_pairs sim_face
            [mkPair (mkElectron (Vec3 (-2) 0 0) 2) (mkElectron origin 0)])
         (Rng [] []).
Proof.
  rewrite update_sweep by reflexivity.
  cbn [metropolis_sweep sim_face pairs np_tape py_tape charge step_size].
  rewrite metropolis_accept_zero, (uniform_vec_face 1), uniform_vec_centre.
  unfold trial_pair. cbn [r e1 e2]. rewrite vec_add_origin_r, disp_origin.
  replace (vec_add (Vec3 (-1) 0 0) (Vec3 (- (1)) 0 0)) with (Vec3 (-2) 0 0)
    by (unfold vec_add; simpl; f_equal; lra).
  rewrite disp_axis. replace (Rabs (-2)) with 2 by (rewrite Rabs_left; lra).
  reflexivity.
Qed.

Lemma update_body_radius s rad j g :
  update_body (with_radius s rad) j g =
    outcome_map (fun s' => with_radius s' rad) (update_body s j g).
Proof.
  unfold update_body, bind, lift, getitem. cbn [with_radius pairs charge step_size].
  destruct (pairs s !! j) as [p|]; [|done].
  unfold np_random_uniform3 at 1 3.
  destruct (np_tape g) as [|a0 [|a1 [|a2 np]]]; try done.
  unfold np_random_uniform3. cbn [np_tape py_tape].
  destruct np as [|b0 [|b1 [|b2 np']]]; try done.
  unfold random_random. cbn [np_tape py_tape].
  destruct (py_tape g) as [|u py']; [done|].
  by destruct (Rgt_dec _ u).
Qed.

Lemma update_loop_radius rad : forall n i s g,
  for_rangeM update_body i n (with_radius s rad) g =
    outcome_map (fun s' => with_radius s' rad) (for_rangeM update_body i n s g).
Proof.
  induction n as [|n IH]; intros i s g; [done|].
  cbn [for_rangeM]. unfold bind. rewrite update_body_radius.
  destruct (update_body s i g) as [s1 g1| |]; simpl; [|done..].
  apply IH.
Qed.

(** [update] never reads the radius. *)
Lemma update_radius s rad g :
  update (with_radius s rad) g =
    outcome_map (fun s' => with_radius s' rad) (update s g).
Proof. apply update_loop_radius. Qed.

Lemma get_data_body_pairs s i s' :
  get_data_body s i = Ok s' -> pairs s' = pairs s /\ radius s' = radius s.
Proof.
  unfold get_data_body, rbind.
  repeat match goal with
  | |- context [getitem ?l ?i] => destruct (getitem l i); [|done]
  | |- context [np_setitem ?l ?i ?v] => destruct (np_setitem l i v); [|done]
  end.
  by intros [= <-].
Qed.

Lemma for_range_get_data_pairs : forall n i s s',
  for_range get_data_body i n s = Ok s' ->
  pairs s' = pairs s /\ radius s' = radius s.
Proof.
  induction n as [|n IH]; intros i s s' H.
  - by inversion H.
  - cbn [for_range] in H. unfold rbind in H.
    destruct (get_data_body s i) as [s1|] eqn:E; [|done].
    apply get_data_body_pairs in E as [E1 E2]. apply IH in H as [H1 H2].
    split; congruence.
Qed.

Lemma get_data_pairs s s' d :
  get_data s = Ok (s', d) -> pairs s' = pairs s /\ radius s' = radius s.
Proof.
  unfold get_data, rbind.
  destruct (for_range _ _ _ _) as [s1|] eqn:E; [|done].
  intros [= <- _]. by apply for_range_get_data_pairs in E.
Qed.

Lemma metropolis_origin_positions q p u :
  r (e1 (metropolis q p origin origin u)) = r (e1 p) /\
  r (e2 (metropolis q p origin origin u)) = r (e2 p).
Proof.
  unfold metropolis. destruct (Rgt_dec _ u); [|done].
  unfold trial_pair; simpl. by rewrite !vec_add_origin_r.
Qed.

Lemma metropolis_sweep_centre q step : forall ps np' py,
  (length ps <= length py)%nat ->
  exists ps',
    metropolis_sweep q step ps (replicate (6 * length ps) (1/2) ++ np') py =
      Some (ps', np', drop (length ps) py) /\
    map (fun p => (r (e1 p), r (e2 p))) ps' =
    map (fun p => (r (e1 p), r (e2 p))) ps.
Proof.
  induction ps as [|p ps IH]; intros np' py Hpy.
  - by exists [].
  - replace (6 * length (p :: ps))%nat with (S (S (S (S (S (S (6 * length ps)))))))
      by (simpl; lia).
    cbn [replicate app metropolis_sweep].
    destruct py as [|u py0]; simpl in Hpy; [lia|].
    destruct (IH np' py0) as (ps' & -> & Hpos); [lia|].
    eexists. split; [done|].
    rewrite !uniform_vec_centre. cbn [map].
    destruct (metropolis_origin_positions q p u) as [-> ->].
    by rewrite Hpos.
Qed.

(** Whatever the state, [update] with draws that are all [1/2] proposes
    the current positions and so moves no electron. *)
Lemma update_centre_positions s np' py :
  num_pairs s = Z.of_nat (length (pairs s)) ->
  (length (pairs s) <= length py)%nat ->
  exists s' g',
    update s (Rng (replicate (6 * length (pairs s)) (1/2) ++ np') py) =
      Done s' g' /\
    positions s' = positions s.
Proof.
  intros Hn Hpy. rewrite update_sweep by done. cbn [np_tape py_tape].
  destruct (metropolis_sweep_centre (charge s) (step_size s) (pairs s) np' py Hpy)
    as (ps' & -> & Hpos).
  by eexists _, _.
Qed.

(** C10: the ball of the constructor is not kept by [update].  The ensemble
    [Qmc(1, 1, 1, 1)] built from the draws [0, 1/2, 1/2, 1/2, 1/2, 1/2] has
    both electrons within the radius [1]; one accepted step moves electron 1
    to distance [2].  [update] never reads the radius and, when its draws
    are all [1/2], moves no electron, so it need not bring one back;
    [set_charge] and [get_data] leave the pairs as they are ([avg_energy]
    has no effect at all).  Nothing but construction and [reset] samples
    inside the ball. *)
Theorem update_leaves_ball :
  (exists s1 p,
     Qmc_init 1 1 1 1 (Rng [0; 1/2; 1/2; 1/2; 1/2; 1/2] []) =
       Done sim_face (Rng [] []) /\
     Forall (pair_in_ball (radius sim_face)) (pairs sim_face) /\
     update sim_face (Rng [0; 1/2; 1/2; 1/2; 1/2; 1/2] [0]) =
       Done s1 (Rng [] []) /\
     pairs s1 = [p] /\ radius s1 = 1 /\
     disp (r (e1 p)) = 2 /\ norm (e1 p) = 2 /\ radius s1 < disp (r (e1 p))) /\
  (forall s rad g,
     update (with_radius s rad) g =
       outcome_map (fun s' => with_radius s' rad) (update s g)) /\
  (forall s np' py,
     num_pairs s = Z.of_nat (length (pairs s)) ->
     (length (pairs s) <= length py)%nat ->
     exists s' g',
       update s (Rng (replicate (6 * length (pairs s)) (1/2) ++ np') py) =
         Done s' g' /\
       positions s' = positions s) /\
  (forall s q, pairs (set_charge s q) = pairs s) /\
  (forall s s' d, get_data s = Ok (s', d) -> pairs s' = pairs s).
Proof.
  split; [|split; [|split; [|split]]].
  - exists (set_pairs sim_face
              [mkPair (mkElectron (Vec3 (-2) 0 0) 2) (mkElectron origin 0)]),
           (mkPair (mkElectron (Vec3 (-2) 0 0) 2) (mkElectron origin 0)).
    split; [apply sim_face_constructed|].
    split; [apply sim_face_in_ball|].
    split; [apply sim_face_update|].
    cbn [set_pairs pairs radius sim_face e1 r norm].
    rewrite disp_axis. replace (Rabs (-2)) with 2 by (rewrite Rabs_left; lra).
    repeat split; lra.
  - apply update_radius.
  - apply update_centre_positions.
  - done.
  - intros s s' d H. by apply get_data_pairs in H as [? _].
Qed.

(** ** Totality on reachable states *)

Lemma reset_pair_Done s p g p' g' :
  reset_pair s p g = Done p' g' ->
  supplies (radius s) 2 (np_tape g) (np_tape g') /\ py_tape g' = py_tape g.
Proof.
  unfold reset_pair. intros H.
  apply bind_Done in H as ([v1 n1] & g1 & Hv1 & H).
  apply bind_Done in H as ([v2 n2] & g2 & Hv2 & H).
  inversion H; subst.
  pose proof (random_vector_supplies _ _ _ _ _ Hv1) as Hs1.
  pose proof (random_vector_supplies _ _ _ _ _ Hv2) as Hs2.
  apply random_vector_Done_iff in Hv1 as (? & ? & ? & ? & _ & _ & _ & _ & _ & Hpy1).
  apply random_vector_Done_iff in Hv2 as (? & ? & ? & ? & _ & _ & _ & _ & _ & Hpy2).
  split; [|congruence].
  by apply (supplies_trans _ 1 1 _ (np_tape g1)).
Qed.

Lemma reset_pair_not_Raised s p g e : reset_pair s p g <> Raised e.
Proof.
  unfold reset_pair. intros H.
  apply bind_Raised in H as [H|([v1 n1] & g1 & _ & H)].
  { by apply random_vector_not_Raised in H. }
  apply bind_Raised in H as [H|([v2 n2] & g2 & _ & H)]; [|done].
  by apply random_vector_not_Raised in H.
Qed.

Lemma reset_pair_supplied s p np py rest :
  supplies (radius s) 2 np rest ->
  exists p', reset_pair s p (Rng np py) = Done p' (Rng rest py).
Proof.
  intros Hsup.
  apply (supplies_random_vector s np py) in Hsup as (v1 & n1 & mid & Hv1 & Hsup).
  apply (supplies_random_vector s mid py) in Hsup as (v2 & n2 & mid2 & Hv2 & Hsup).
  inversion Hsup; subst.
  unfold reset_pair. unfold bind at 1. rewrite Hv1.
  unfold bind at 1. rewrite Hv2. by eexists.
Qed.

Lemma reset_loop_length s : forall ps g ps' g',
  reset_loop s ps g = Done ps' g' -> length ps' = length ps.
Proof.
  induction ps as [|p ps IH]; intros g ps' g' H.
  - by inversion H.
  - cbn [reset_loop] in H.
    apply bind_Done in H as (p' & g1 & _ & H).
    apply bind_Done in H as (rest' & g2 & Hrest & H).
    inversion H; subst. simpl. f_equal. by eapply IH.
Qed.

Lemma reset_loop_not_Raised s : forall ps g e, reset_loop s ps g <> Raised e.
Proof.
  induction ps as [|p ps IH]; intros g e H; [done|].
  cbn [reset_loop] in H.
  apply bind_Raised in H as [H|(p' & g1 & _ & H)].
  { by apply reset_pair_not_Raised in H. }
  apply bind_Raised in H as [H|(rest' & g2 & _ & H)]; [|done].
  by apply IH in H.
Qed.

Lemma supplies_split radius j : forall k tape rest,
  supplies radius (j + k) tape rest ->
  exists mid, supplies radius j tape mid /\ supplies radius k mid rest.
Proof.
  induction j as [|j IH]; intros k tape rest H.
  - exists tape. split; [constructor|done].
  - simpl in H. inversion H as [|? pre u0 u1 u2 tape' ? Hrej Hacc Hmore]; subst.
    apply IH in Hmore as (mid & Hj & Hk).
    exists mid. split; [by constructor|done].
Qed.

Lemma reset_loop_supplied s : forall ps np py rest,
  supplies (radius s) (2 * length ps) np rest ->
  exists ps', reset_loop s ps (Rng np py) = Done ps' (Rng rest py).
Proof.
  induction ps as [|p ps IH]; intros np py rest Hsup.
  - inversion Hsup; subst. by exists [].
  - replace (2 * length (p :: ps))%nat with (2 + 2 * length ps)%nat in Hsup
      by (simpl; lia).
    apply supplies_split in Hsup as (mid & H2 & Hrest).
    destruct (reset_pair_supplied s p np py mid H2) as [p' Hp'].
    destruct (IH mid py rest Hrest) as [ps' Hps'].
    exists (p' :: ps'). cbn [reset_loop].
    unfold bind at 1. rewrite Hp'. unfold bind at 1. by rewrite Hps'.
Qed.

Lemma reset_Done s g s' g' :
  reset s g = Done s' g' ->
  exists ps', s' = set_pairs s ps' /\ length ps' = length (pairs s).
Proof.
  unfold reset. intros H. apply bind_Done in H as (ps' & g1 & Hloop & H).
  inversion H; subst. exists ps'. split; [done|].
  by eapply reset_loop_length.
Qed.

Lemma reset_not_Raised s g e : reset s g <> Raised e.
Proof.
  unfold reset. intros H.
  apply bind_Raised in H as [H|(ps' & g1 & _ & H)]; [|done].
  by apply reset_loop_not_Raised in H.
Qed.

Lemma reset_supplied s g rest :
  supplies (radius s) (2 * length (pairs s)) (np_tape g) rest ->
  exists s', reset s g = Done s' (Rng rest (py_tape g)).
Proof.
  intros Hsup. destruct g as [np py].
  destruct (reset_loop_supplied s (pairs s) np py rest Hsup) as [ps' Hps'].
  exists (set_pairs s ps'). unfold reset, bind. by rewrite Hps'.
Qed.

Lemma getitem_Ok {A} (l : list A) i :
  (i < length l)%nat -> exists a, getitem l i = Ok a.
Proof.
  intros Hi. unfold getitem.
  destruct (lookup_lt_is_Some_2 l i Hi) as [a ->]. by exists a.
Qed.

Lemma np_setitem_Ok {A} (l : list A) i v :
  (i < length l)%nat -> np_setitem l i v = Ok (<[i := v]> l).
Proof. intros Hi. unfold np_setitem. by destruct (decide (i < length l)%nat). Qed.

Lemma get_data_body_Ok s i :
  (i < length (pairs s))%nat -> well_formed s ->
  exists s', get_data_body s i = Ok s' /\ well_formed s' /\ pairs s' = pairs s.
Proof.
  intros Hi (Hn & Hx & Hy & Hz). unfold get_data_body.
  destruct (getitem_Ok (pairs s) i Hi) as [p ->]. cbn [rbind].
  rewrite !np_setitem_Ok by lia. cbn [rbind].
  rewrite !np_setitem_Ok by (rewrite length_insert; lia). cbn [rbind].
  eexists. split; [done|]. unfold well_formed; simpl.
  rewrite !length_insert. done.
Qed.

Lemma for_range_get_data_Ok : forall n i s,
  (i + n <= length (pairs s))%nat -> well_formed s ->
  exists s', for_range get_data_body i n s = Ok s' /\
             well_formed s' /\ pairs s' = pairs s.
Proof.
  induction n as [|n IH]; intros i s Hi Hwf.
  - by exists s.
  - cbn [for_range].
    destruct (get_data_body_Ok s i) as (s1 & -> & Hwf1 & Hp1); [lia|done|].
    cbn [rbind]. destruct (IH (S i) s1) as (s' & -> & Hwf' & Hp').
    + rewrite Hp1. lia.
    + done.
    + exists s'. split; [done|]. split; [done|congruence].
Qed.

Lemma get_data_Ok s :
  well_formed s ->
  exists s' d, get_data s = Ok (s', d) /\ well_formed s' /\ pairs s' = pairs s.
Proof.
  intros Hwf. unfold get_data.
  destruct (for_range_get_data_Ok (Z.to_nat (num_pairs s)) 0 s)
    as (s' & -> & Hwf' & Hp'); [destruct Hwf as [-> _]; lia | done |].
  cbn [rbind]. by eexists _, _.
Qed.

Lemma get_data_well_formed s s' d :
  well_formed s -> get_data s = Ok (s', d) -> well_formed s'.
Proof.
  intros Hwf H. destruct (get_data_Ok s Hwf) as (s1 & d1 & H1 & Hwf1 & _).
  congruence.
Qed.

Lemma set_pairs_well_formed s ps :
  well_formed s -> length ps = length (pairs s) -> well_formed (set_pairs s ps).
Proof.
  intros (Hn & Hx & Hy & Hz) Hlen. unfold well_formed; simpl.
  rewrite Hlen. done.
Qed.

(** Every reachable ensemble has the constructor's shape and at least one
    pair. *)
Lemma reachable_well_formed s :
  reachable s -> well_formed s /\ pairs s <> [].
Proof.
  induction 1 as [n rad step q g s g' Hn Hrad Hinit
                 | s g s' g' _ [IHwf IHne] Hreset
                 | s q _ [IHwf IHne]
                 | s g s' g' _ [IHwf IHne] Hupd
                 | s s' d _ [IHwf IHne] Hget].
  - pose proof (Qmc_init_cached _ _ _ _ _ _ _ Hinit) as (_ & _ & Hwf & _).
    split; [done|]. intros Hnil.
    assert (Hnum : num_pairs s = n).
    { rewrite Qmc_init_unfold in Hinit by lia.
      by apply generate_pairs_loop_Done in Hinit as (new & -> & _). }
    destruct Hwf as [Hlen _]. rewrite Hnil in Hlen. simpl in Hlen. lia.
  - apply reset_Done in Hreset as (ps' & -> & Hlen).
    split; [by apply set_pairs_well_formed|].
    simpl. destruct ps'; [|done]. by destruct (pairs s).
  - done.
  - destruct IHwf as [Hn ?].
    destruct (update s g) as [s1 g1| |] eqn:E; [|done..].
    rewrite update_sweep in E by done.
    destruct (metropolis_sweep _ _ _ _ _) as [[[ps' np'] py']|] eqn:E'; [|done].
    apply metropolis_sweep_length in E' as [Hlen _].
    inversion E; subst. inversion Hupd; subst.
    split; [by apply set_pairs_well_formed|].
    simpl. destruct ps'; [|done]. by destruct (pairs s).
  - split; [by eapply get_data_well_formed|].
    apply get_data_pairs in Hget as [-> _]. done.
Qed.

Lemma avg_energy_finite s :
  num_pairs s = Z.of_nat (length (pairs s)) -> pairs s <> [] ->
  charge s ^ 2 < pow_overflow ->
  exists v, avg_energy s = Ok v /\
            (Exists singular (pairs s) -> ~ is_finite v).
Proof.
  intros Hn Hne Hq. rewrite avg_energy_Ok by done. eexists. split; [done|].
  intros Hsing Hfin. unfold np_average in Hfin.
  rewrite length_map in Hfin.
  rewrite np_div_finite_l in Hfin by (by apply INR_length_nonzero).
  apply foldl_np_add_finite in Hfin as [_ Hall].
  apply Exists_exists in Hsing as (p & Hp & Hsing).
  rewrite Forall_forall in Hall.
  specialize (Hall (local_energy64 p (charge s))).
  apply singular_not_nonsingular in Hsing. apply Hsing.
  apply (local_energy64_finite_iff p (charge s)). apply Hall.
  apply list_elem_of_In. apply in_map_iff. exists p. split; [done|].
  by apply list_elem_of_In.
Qed.

(** C8, as the code has it: on every state reachable from a correctly
    constructed ensemble, [reset], [update] and [get_data] raise nothing:
    [reset] and [update] return as soon as the generators supply their
    draws and [get_data] returns.  [avg_energy] raises [OverflowError] when
    [charge ** 2] is out of the range of a float, and otherwise returns a
    value.  Division by zero does happen: when a cached norm is zero or the
    two electrons of a pair are at the same position, that value is [inf],
    [-inf] or [nan]. *)
Theorem reachable_operations_total (s : Qmc) :
  reachable s ->
  (forall g e, reset s g <> Raised e) /\
  (forall g rest,
     supplies (radius s) (2 * length (pairs s)) (np_tape g) rest ->
     exists s', reset s g = Done s' (Rng rest (py_tape g))) /\
  (forall g e, update s g <> Raised e) /\
  (forall g,
     (6 * length (pairs s) <= length (np_tape g))%nat ->
     (length (pairs s) <= length (py_tape g))%nat ->
     exists s' g', update s g = Done s' g') /\
  (exists s' d, get_data s = Ok (s', d)) /\
  (charge s ^ 2 < pow_overflow ->
   exists v, avg_energy s = Ok v /\
             (Exists singular (pairs s) -> ~ is_finite v)) /\
  (pow_overflow <= charge s ^ 2 -> avg_energy s = Raise OverflowError).
Proof.
  intros Hreach.
  destruct (reachable_well_formed s Hreach) as [Hwf Hne].
  pose proof Hwf as (Hn & _).
  split; [|split; [|split; [|split; [|split; [|split]]]]].
  - intros g e. apply reset_not_Raised.
  - intros g rest. apply reset_supplied.
  - intros g e. by apply update_not_Raised.
  - intros g Hnp Hpy.
    destruct (update_enough s g Hn Hnp Hpy) as (ps' & -> & _). by eexists _, _.
  - destruct (get_data_Ok s Hwf) as (s' & d & H & _). by exists s', d.
  - by apply avg_energy_finite.
  - by apply avg_energy_overflow.
Qed.

Lemma sim_origin_reachable : reachable sim_origin.
Proof.
  eapply (reach_init 1 1 1 1); [lia | lra | apply sim_origin_constructed].
Qed.

Lemma sim_origin_avg_energy : avg_energy sim_origin = Ok NaN.
Proof.
  rewrite avg_energy_Ok; [|done|done|apply small_square; simpl; lra].
  unfold np_average, local_energy64, sim_origin, origin.
  cbn [pairs charge map foldl length e1 e2 r norm].
  rewrite get_dist_axis.
  replace (Rabs (0 - 0)) with 0 by (rewrite Rminus_diag, Rabs_R0; done).
  rewrite !np_div_zero. unfold signed_inf.
  destruct (Rlt_dec 0 (1 - 2)); [lra|].
  destruct (Rlt_dec (1 - 2) 0); [|lra].
  destruct (Rlt_dec 0 1); [|lra]. reflexivity.
Qed.

(** C8 fails on the ensemble [Qmc(1, 1, 1, 1)] built from draws that are
    all [1/2]: both electrons are on the nucleus, every divisor of the local
    energy is zero, and [avg_energy] returns [nan]. *)
Lemma avg_energy_divides_by_zero :
  Qmc_init 1 1 1 1 (Rng (replicate 6 (1/2)) []) = Done sim_origin (Rng [] []) /\
  reachable sim_origin /\
  norm (e1 (mkPair (mkElectron origin 0) (mkElectron origin 0))) = 0 /\
  ~ Forall nonsingular (pairs sim_origin) /\
  avg_energy sim_origin = Ok NaN.
Proof.
  split; [apply sim_origin_constructed|].
  split; [apply sim_origin_reachable|].
  split; [done|].
  split; [|apply sim_origin_avg_energy].
  intros H. inversion H as [|? ? [Hn _] _]; subst. by apply Hn.
Qed.

Lemma update_Done_charge s g s' g' :
  num_pairs s = Z.of_nat (length (pairs s)) ->
  update s g = Done s' g' -> charge s' = charge s.
Proof.
  intros Hn Hrun. rewrite update_sweep in Hrun by done.
  destruct (metropolis_sweep _ _ _ _ _) as [[[ps' np'] py']|]; [|done].
  by inversion Hrun.
Qed.

(** A state reached through the operations: [sim_face] after the accepted
    step of [sim_face_update], a snapshot, a change of charge to [2] and
    one more step in which nothing moves. *)
Lemma moved_reachable :
  exists s,
    reachable s /\ charge s = 2 /\
    pairs s = [mkPair (mkElectron (Vec3 (-2) 0 0) 2) (mkElectron origin 0)].
Proof.
  assert (H0 : reachable sim_face).
  { eapply (reach_init 1 1 1 1); [lia | lra | apply sim_face_constructed]. }
  pose proof (reach_update _ _ _ _ H0 sim_face_update) as H1.
  destruct (reachable_well_formed _ H1) as [Hwf1 _].
  destruct (get_data_Ok _ Hwf1) as (s2 & d & Hget & Hwf2 & Hp2).
  pose proof (reach_get_data _ _ _ H1 Hget) as H2.
  pose proof (reach_set_charge _ 2 H2) as H3.
  destruct (update_centre_positions (set_charge s2 2) [] [1/2])
    as (s4 & g4 & Hupd & Hpos).
  { destruct Hwf2 as [Hn _]. exact Hn. }
  { simpl. rewrite Hp2. simpl. lia. }
  pose proof (reach_update _ _ _ _ H3 Hupd) as H4.
  destruct (reachable_well_formed _ H4) as [Hwf4 _].
  assert (Hc : Forall pair_cached (pairs s4)).
  { eapply update_cached; [| |exact Hupd].
    - destruct Hwf2 as [Hn _]. exact Hn.
    - simpl. rewrite Hp2. simpl. constructor; [|constructor].
      split; unfold cached; simpl.
      + rewrite disp_axis, Rabs_left; lra.
      + by rewrite disp_origin. }
  exists s4. split; [exact H4|]. split.
  - apply update_Done_charge in Hupd; [done|].
    destruct Hwf2 as [Hn _]. exact Hn.
  - unfold positions in Hpos. simpl in Hpos. rewrite Hp2 in Hpos.
    simpl in Hpos.
    destruct (pairs s4) as [|[[v1 n1] [v2 n2]] [|? ?]]; try done.
    simpl in Hpos. injection Hpos as -> ->.
    inversion Hc as [|? ? [Hc1 Hc2] _]; subst.
    unfold cached in Hc1, Hc2. simpl in Hc1, Hc2.
    rewrite disp_axis, Rabs_left in Hc1 by lra. rewrite disp_origin in Hc2.
    subst. do 3 f_equal. lra.
Qed.

Lemma reachable_operations_total_witness :
  exists s v,
    pairs s = [mkPair (mkElectron (Vec3 (-2) 0 0) 2) (mkElectron origin 0)] /\
    avg_energy s = Ok v /\ ~ is_finite v.
Proof.
  destruct moved_reachable as (s & Hreach & Hq & Hp).
  destruct (reachable_operations_total s Hreach)
    as (_ & _ & _ & _ & _ & H & _).
  destruct H as (v & Hv & Hsing).
  - rewrite Hq. apply small_square. simpl. lra.
  - exists s, v. split; [exact Hp|]. split; [exact Hv|].
    apply Hsing. rewrite Hp. apply Exists_cons_hd.
    right. left. reflexivity.
Defined.

(** ** Further properties *)

Lemma Qmc_init_outcome_witness :
  exists s,
    Qmc_init 1 1 1 1 (Rng (replicate 6 (1/2)) []) = Done s (Rng [] []) /\
    num_pairs s = 1%Z /\ length (pairs s) = 1%nat.
Proof.
  destruct (Qmc_init_outcome 1 1 1 1 (Rng (replicate 6 (1/2)) []))
    as (_ & _ & _ & _ & Hok & Hsup).
  apply (Hok ltac:(lia) []).
  apply (Hsup ltac:(lia) ltac:(lra) []).
Defined.

(** The part of C1 that holds, at construction: every electron the
    constructor makes has its cached norm equal to the norm of its position
    and lies within the radius, and the ensemble has the shape
    [well_formed]. *)
Theorem construction_establishes_cache
    (n : Z) (rad step q : R) (g : rng) (s : Qmc) (g' : rng) :
  Qmc_init n rad step q g = Done s g' ->
  Forall pair_cached (pairs s) /\ Forall (pair_in_ball rad) (pairs s) /\
  well_formed s /\ radius s = rad.
Proof. apply Qmc_init_cached. Qed.

Lemma construction_establishes_cache_witness :
  Forall pair_cached (pairs sim_face) /\
  Forall (pair_in_ball 1) (pairs sim_face).
Proof.
  destruct (construction_establishes_cache 1 1 1 1
              (Rng [0; 1/2; 1/2; 1/2; 1/2; 1/2] []) sim_face (Rng [] [])
              sim_face_constructed) as (Hc & Hb & _).
  exact (conj Hc Hb).
Defined.

(** The part of C1 that holds, at [update]: on an ensemble of the
    constructor's shape whose cached norms are right, they are right again
    after [update]. *)
Theorem update_keeps_cache (s : Qmc) (g : rng) (s' : Qmc) (g' : rng) :
  num_pairs s = Z.of_nat (length (pairs s)) ->
  Forall pair_cached (pairs s) ->
  update s g = Done s' g' ->
  Forall pair_cached (pairs s').
Proof. apply update_cached. Qed.

Lemma update_keeps_cache_witness :
  Forall pair_cached
    [mkPair (mkElectron (Vec3 (-2) 0 0) 2) (mkElectron origin 0)].
Proof.
  apply (update_keeps_cache sim_face (Rng [0; 1/2; 1/2; 1/2; 1/2; 1/2] [0])
           (set_pairs sim_face
              [mkPair (mkElectron (Vec3 (-2) 0 0) 2) (mkElectron origin 0)])
           (Rng [] [])).
  - reflexivity.
  - constructor; [|constructor]. split; unfold cached; simpl.
    + symmetry. rewrite <- Rabs_m1 at 1. rewrite <- disp_axis. reflexivity.
    + symmetry. apply disp_origin.
  - exact sim_face_update.
Defined.

(** ** The snapshot *)

Lemma snapshot_app coord ps qs :
  snapshot coord (ps ++ qs) = snapshot coord ps ++ snapshot coord qs.
Proof. unfold snapshot. by rewrite flat_map_app. Qed.

Lemma snapshot_length coord ps : length (snapshot coord ps) = (2 * length ps)%nat.
Proof. induction ps as [|p ps IH]; simpl in *; lia. Qed.

Lemma snapshot_lookup coord : forall ps i p,
  ps !! i = Some p ->
  snapshot coord ps !! (2 * i)%nat = Some (coord (r (e1 p))) /\
  snapshot coord ps !! (2 * i + 1)%nat = Some (coord (r (e2 p))).
Proof.
  induction ps as [|p0 ps IH]; intros i p Hi; [done|].
  destruct i as [|i].
  - by inversion Hi; subst.
  - simpl in Hi. apply IH in Hi as [H0 H1].
    replace (2 * S i)%nat with (S (S (2 * i))) by lia. by simpl.
Qed.

Lemma np_setitem_middle {A} (X : list A) a rest i v :
  i = length X ->
  np_setitem (X ++ a :: rest) i v = Ok (X ++ v :: rest).
Proof.
  intros ->. rewrite np_setitem_Ok by (rewrite length_app; simpl; lia).
  rewrite insert_app_r_alt by done. by rewrite Nat.sub_diag.
Qed.

Lemma np_setitem_pair {A} (X : list A) xr i v w :
  length X = (2 * i)%nat -> (2 <= length xr)%nat ->
  exists xr',
    xr = take 2 xr ++ xr' /\ length xr' = (length xr - 2)%nat /\
    rbind (np_setitem (X ++ xr) (2 * i) v)
          (fun xs => np_setitem xs (2 * i + 1) w) = Ok (X ++ [v; w] ++ xr').
Proof.
  intros HX Hxr. destruct xr as [|a0 [|a1 xr']]; simpl in Hxr; try lia.
  exists xr'. split; [done|]. split; [simpl; lia|].
  rewrite (np_setitem_middle X a0 (a1 :: xr')) by done. cbn [rbind].
  replace (X ++ v :: a1 :: xr') with ((X ++ [v]) ++ a1 :: xr')
    by (by rewrite <- app_assoc).
  rewrite np_setitem_middle by (rewrite length_app; simpl; lia).
  by rewrite <- app_assoc.
Qed.

Lemma get_data_loop : forall todo done s X Y Z xr yr zr,
  pairs s = done ++ todo ->
  x_data s = X ++ xr -> y_data s = Y ++ yr -> z_data s = Z ++ zr ->
  length X = (2 * length done)%nat -> length Y = (2 * length done)%nat ->
  length Z = (2 * length done)%nat ->
  length xr = (2 * length todo)%nat -> length yr = (2 * length todo)%nat ->
  length zr = (2 * length todo)%nat ->
  for_range get_data_body (length done) (length todo) s =
    Ok (set_data s (X ++ snapshot c0 todo) (Y ++ snapshot c1 todo)
                   (Z ++ snapshot c2 todo)).
Proof.
  induction todo as [|p todo IH];
    intros done s X Y Z xr yr zr Hps Hx Hy Hz HX HY HZ Hxr Hyr Hzr.
  - destruct xr, yr, zr; try done. simpl in *.
    rewrite <- Hx, <- Hy, <- Hz. by destruct s.
  - cbn [length for_range]. unfold get_data_body at 1.
    unfold getitem. rewrite Hps, list_lookup_middle by done. cbn [rbind].
    rewrite Hx, Hy, Hz.
    destruct (np_setitem_pair X xr (length done) (c0 (r (e1 p))) (c0 (r (e2 p))))
      as (xr' & _ & Hxr' & Hxs); [done | simpl in Hxr; lia |].
    destruct (np_setitem_pair Y yr (length done) (c1 (r (e1 p))) (c1 (r (e2 p))))
      as (yr' & _ & Hyr' & Hys); [done | simpl in Hyr; lia |].
    destruct (np_setitem_pair Z zr (length done) (c2 (r (e1 p))) (c2 (r (e2 p))))
      as (zr' & _ & Hzr' & Hzs); [done | simpl in Hzr; lia |].
    unfold rbind in Hxs, Hys, Hzs.
    destruct (np_setitem (X ++ xr) _ _) as [xs1|]; [|done].
    destruct (np_setitem (Y ++ yr) _ _) as [ys1|]; [|done].
    destruct (np_setitem (Z ++ zr) _ _) as [zs1|]; [|done].
    cbn [rbind]. rewrite Hxs, Hys, Hzs. cbn [rbind].
    replace (S (length done)) with (length (done ++ [p]))
      by (rewrite length_app; simpl; lia).
    rewrite (IH (done ++ [p]) _
               (X ++ [c0 (r (e1 p)); c0 (r (e2 p))])
               (Y ++ [c1 (r (e1 p)); c1 (r (e2 p))])
               (Z ++ [c2 (r (e1 p)); c2 (r (e2 p))]) xr' yr' zr').
    + simpl. by rewrite <- !app_assoc.
    + simpl. by rewrite Hps, <- app_assoc.
    + simpl. by rewrite <- app_assoc.
    + simpl. by rewrite <- app_assoc.
    + simpl. by rewrite <- app_assoc.
    + rewrite !length_app. simpl. lia.
    + rewrite !length_app. simpl. lia.
    + rewrite !length_app. simpl. lia.
    + simpl in Hxr. lia.
    + simpl in Hyr. lia.
    + simpl in Hzr. lia.
Qed.

Lemma get_data_value s :
  well_formed s ->
  get_data s =
    Ok (set_data s (snapshot c0 (pairs s)) (snapshot c1 (pairs s))
                   (snapshot c2 (pairs s)),
        (snapshot c0 (pairs s), snapshot c1 (pairs s), snapshot c2 (pairs s))).
Proof.
  intros (Hn & Hx & Hy & Hz). unfold get_data. rewrite Hn, Nat2Z.id.
  pose proof (get_data_loop (pairs s) [] s [] [] []
                (x_data s) (y_data s) (z_data s)
                eq_refl eq_refl eq_refl eq_refl eq_refl eq_refl eq_refl
                Hx Hy Hz) as H.
  cbn [length app] in H. by rewrite H.
Qed.

Lemma set_data_well_formed s xs ys zs :
  num_pairs s = Z.of_nat (length (pairs s)) ->
  length xs = (2 * length (pairs s))%nat ->
  length ys = (2 * length (pairs s))%nat ->
  length zs = (2 * length (pairs s))%nat ->
  well_formed (set_data s xs ys zs).
Proof. by intros; repeat split. Qed.

Lemma sim_face_well_formed : well_formed sim_face.
Proof. by repeat split. Qed.

(** The snapshot: on an ensemble of the constructor's shape [get_data]
    returns, for each coordinate, the array holding the coordinate of
    electron 1 of pair [i] at index [2 i] and of electron 2 at index
    [2 i + 1], whatever the arrays held before; it stores these arrays in
    the ensemble and changes nothing else, so that a second call returns
    the same arrays. *)
Theorem get_data_snapshot (s : Qmc) :
  well_formed s ->
  let xs := snapshot c0 (pairs s) in
  let ys := snapshot c1 (pairs s) in
  let zs := snapshot c2 (pairs s) in
  get_data s = Ok (set_data s xs ys zs, (xs, ys, zs)) /\
  get_data (set_data s xs ys zs) = Ok (set_data s xs ys zs, (xs, ys, zs)) /\
  length xs = (2 * length (pairs s))%nat /\
  (forall i p, pairs s !! i = Some p ->
     xs !! (2 * i)%nat = Some (c0 (r (e1 p))) /\
     xs !! (2 * i + 1)%nat = Some (c0 (r (e2 p))) /\
     ys !! (2 * i)%nat = Some (c1 (r (e1 p))) /\
     ys !! (2 * i + 1)%nat = Some (c1 (r (e2 p))) /\
     zs !! (2 * i)%nat = Some (c2 (r (e1 p))) /\
     zs !! (2 * i + 1)%nat = Some (c2 (r (e2 p)))).
Proof.
  intros Hwf. cbv zeta. split; [by apply get_data_value|]. split.
  - rewrite get_data_value.
    + done.
    + destruct Hwf as (Hn & _).
      apply set_data_well_formed; [done | apply snapshot_length..].
  - split; [apply snapshot_length|]. intros i p Hi.
    destruct (snapshot_lookup c0 _ _ _ Hi) as [? ?].
    destruct (snapshot_lookup c1 _ _ _ Hi) as [? ?].
    destruct (snapshot_lookup c2 _ _ _ Hi) as [? ?].
    done.
Qed.

Lemma get_data_snapshot_witness :
  get_data sim_face =
    Ok (set_data sim_face (snapshot c0 (pairs sim_face))
                 (snapshot c1 (pairs sim_face)) (snapshot c2 (pairs sim_face)),
        (snapshot c0 (pairs sim_face), snapshot c1 (pairs sim_face),
         snapshot c2 (pairs sim_face))).
Proof.
  destruct (get_data_snapshot sim_face sim_face_well_formed) as [H _].
  exact H.
Defined.

(** ** The ensemble without pairs *)

(** [Qmc(0, radius, step_size, charge)] is built without a draw and holds
    no pair.  On it [update] and [reset] return at once and change nothing,
    [get_data] returns empty arrays, but [avg_energy] raises
    [ZeroDivisionError], and so does [calibrate_system] in its first
    round. *)
Theorem empty_ensemble (rad step q : R) (g : rng) (fuel : nat) (plotting : bool) :
  Qmc_init 0 rad step q g = Done (mkQmc 0 [] rad step q [] [] []) g /\
  update (mkQmc 0 [] rad step q [] [] []) g =
    Done (mkQmc 0 [] rad step q [] [] []) g /\
  reset (mkQmc 0 [] rad step q [] [] []) g =
    Done (mkQmc 0 [] rad step q [] [] []) g /\
  get_data (mkQmc 0 [] rad step q [] [] []) =
    Ok (mkQmc 0 [] rad step q [] [] [], ([], [], [])) /\
  avg_energy (mkQmc 0 [] rad step q [] [] []) = Raise ZeroDivisionError /\
  calibrate_system (S fuel) (mkQmc 0 [] rad step q [] [] []) plotting g =
    Raised ZeroDivisionError.
Proof.
  repeat split; done.
Qed.

(** ** What [update] uses and keeps *)

Lemma metropolis_sweep_drop q step : forall ps np py ps' np' py',
  metropolis_sweep q step ps np py = Some (ps', np', py') ->
  np' = drop (6 * length ps) np /\ py' = drop (length ps) py /\
  (6 * length ps <= length np)%nat /\ (length ps <= length py)%nat.
Proof.
  induction ps as [|p ps IH]; intros np py ps' np' py' H.
  - inversion H; subst. simpl. repeat split; lia.
  - cbn [metropolis_sweep] in H.
    destruct np as [|a0 [|a1 [|a2 [|b0 [|b1 [|b2 np0]]]]]]; try done.
    destruct py as [|u py0]; [done|].
    destruct (metropolis_sweep q step ps np0 py0) as [[[ps1 np1] py1]|] eqn:E;
      [|done].
    inversion H; subst. apply IH in E as (-> & -> & Hnp & Hpy).
    replace (6 * length (p :: ps))%nat with (S (S (S (S (S (S (6 * length ps)))))))
      by (simpl; lia).
    simpl. repeat split; lia.
Qed.

(** [update] takes exactly six draws of numpy's generator and one of
    Python's per pair: it returns exactly when the tapes hold that many, and
    then leaves the tapes without them.  It changes the pairs only, and
    never their number. *)
Theorem update_consumes_draws (s : Qmc) (g : rng) :
  num_pairs s = Z.of_nat (length (pairs s)) ->
  ((exists s' g', update s g = Done s' g') <->
   (6 * length (pairs s) <= length (np_tape g))%nat /\
   (length (pairs s) <= length (py_tape g))%nat) /\
  (forall s' g', update s g = Done s' g' ->
     s' = set_pairs s (pairs s') /\
     same_frame s s' /\
     np_tape g' = drop (6 * length (pairs s)) (np_tape g) /\
     py_tape g' = drop (length (pairs s)) (py_tape g)).
Proof.
  intros Hn.
  assert (Hdone : forall s' g', update s g = Done s' g' ->
    s' = set_pairs s (pairs s') /\ same_frame s s' /\
    np_tape g' = drop (6 * length (pairs s)) (np_tape g) /\
    py_tape g' = drop (length (pairs s)) (py_tape g) /\
    (6 * length (pairs s) <= length (np_tape g))%nat /\
    (length (pairs s) <= length (py_tape g))%nat).
  { intros s' g' Hrun. rewrite update_sweep in Hrun by done.
    destruct (metropolis_sweep _ _ _ _ _) as [[[ps' np'] py']|] eqn:E; [|done].
    inversion Hrun; subst; clear Hrun.
    pose proof (metropolis_sweep_length _ _ _ _ _ _ _ _ E) as (Hlen & _).
    apply metropolis_sweep_drop in E as (-> & -> & Hnp & Hpy).
    by repeat split. }
  split.
  - split.
    + intros (s' & g' & Hrun). by apply Hdone in Hrun as (_ & _ & _ & _ & ? & ?).
    + intros [Hnp Hpy].
      destruct (update_enough s g Hn Hnp Hpy) as (ps' & Hrun & _).
      by eexists _, _.
  - intros s' g' Hrun. by apply Hdone in Hrun as (? & ? & ? & ? & _).
Qed.

Lemma update_consumes_draws_witness :
  np_tape (Rng [] []) = drop (6 * length (pairs sim_face))
                             [0; 1/2; 1/2; 1/2; 1/2; 1/2] /\
  py_tape (Rng [] []) = drop (length (pairs sim_face)) [0].
Proof.
  destruct (update_consumes_draws sim_face
              (Rng [0; 1/2; 1/2; 1/2; 1/2; 1/2] [0]) eq_refl) as [_ H].
  destruct (H _ _ sim_face_update) as (_ & _ & Hnp & Hpy).
  exact (conj Hnp Hpy).
Defined.

(** ** Which moves [update] accepts, and how far they go *)

Lemma one_le_exp x : 0 <= x -> 1 <= exp x.
Proof.
  intros [Hx| <-].
  - left. rewrite <- exp_0. by apply exp_increasing.
  - right. by rewrite exp_0.
Qed.

Lemma exp_ge_one_inv x : 1 <= exp x -> 0 <= x.
Proof.
  intros H. destruct (Rle_or_lt 0 x) as [|Hneg]; [done|].
  apply exp_increasing in Hneg. rewrite exp_0 in Hneg. lra.
Qed.

(** The acceptance ratio is positive, it is at least [1] exactly when
    [charge * (r1 + r2 - t1 - t2) >= 0], and the ratios of two moves in a
    row multiply to the ratio of the direct move. *)
Theorem move_accept_ratio (r1 r2 t1 t2 s1 s2 q : R) :
  0 < move_accept r1 r2 t1 t2 q /\
  (1 <= move_accept r1 r2 t1 t2 q <-> 0 <= q * (r1 + r2 - t1 - t2)) /\
  move_accept r1 r2 t1 t2 q * move_accept t1 t2 s1 s2 q =
    move_accept r1 r2 s1 s2 q.
Proof.
  unfold move_accept. split; [apply exp_pos|]. split.
  - split.
    + intros H. apply exp_ge_one_inv in H. lra.
    + intros H. apply one_le_exp. lra.
  - rewrite <- exp_plus. f_equal. ring.
Qed.

Lemma metropolis_downhill q p d1 d2 u :
  u < 1 ->
  0 <= q * (norm (e1 p) + norm (e2 p)
            - norm (e1 (trial_pair p d1 d2)) - norm (e2 (trial_pair p d1 d2))) ->
  metropolis q p d1 d2 u = trial_pair p d1 d2.
Proof.
  intros Hu Hq. unfold metropolis.
  destruct (Rgt_dec _ u) as [_|Hn]; [done|]. destruct Hn.
  unfold acceptance_ratio.
  assert (1 <= exp (2 * q * (norm (e1 p) + norm (e2 p)
                     - norm (e1 (trial_pair p d1 d2))
                     - norm (e2 (trial_pair p d1 d2)))))
    by (apply one_le_exp; lra).
  lra.
Qed.

(** A move that does not take the two electrons further from the nucleus
    in total is always accepted when the charge is not negative (and every
    move is when the charge is zero): if
    [charge * (r1 + r2 - |t1| - |t2|) >= 0] for pair [j], then after
    [update] pair [j] is the trial pair, whatever the acceptance draw. *)
Theorem update_accepts_downhill (s s' : Qmc) (g g' : rng) (j : nat) (p : Pair) :
  num_pairs s = Z.of_nat (length (pairs s)) ->
  valid_tape (py_tape g) ->
  update s g = Done s' g' ->
  pairs s !! j = Some p ->
  exists a0 a1 a2 b0 b1 b2,
    np_tape g !! (6 * j)%nat = Some a0 /\
    np_tape g !! (6 * j + 1)%nat = Some a1 /\
    np_tape g !! (6 * j + 2)%nat = Some a2 /\
    np_tape g !! (6 * j + 3)%nat = Some b0 /\
    np_tape g !! (6 * j + 4)%nat = Some b1 /\
    np_tape g !! (6 * j + 5)%nat = Some b2 /\
    let t := trial_pair p (uniform_vec (- step_size s) (step_size s) a0 a1 a2)
                          (uniform_vec (- step_size s) (step_size s) b0 b1 b2) in
    (0 <= charge s * (norm (e1 p) + norm (e2 p) - norm (e1 t) - norm (e2 t)) ->
     pairs s' !! j = Some t).
Proof.
  intros Hn Hpy Hrun Hj.
  rewrite update_sweep in Hrun by done.
  destruct (metropolis_sweep _ _ _ _ _) as [[[ps' np'] py']|] eqn:E; [|done].
  inversion Hrun; subst; clear Hrun.
  destruct (metropolis_sweep_lookup _ _ _ _ _ _ _ _ _ _ E Hj)
    as (a0 & a1 & a2 & b0 & b1 & b2 & u
        & Ha0 & Ha1 & Ha2 & Hb0 & Hb1 & Hb2 & Hu & Hp').
  exists a0, a1, a2, b0, b1, b2. repeat (split; [done|]).
  cbv zeta. intros Hq. simpl. rewrite Hp'. f_equal.
  apply metropolis_downhill; [|done].
  by destruct (Forall_lookup_1 unit_draw _ _ _ Hpy Hu).
Qed.

Lemma update_accepts_downhill_witness :
  exists s',
    update (set_charge sim_face 0) (Rng [0; 1/2; 1/2; 1/2; 1/2; 1/2] [1/2]) =
      Done s' (Rng [] []) /\
    pairs s' !! 0%nat =
      Some (trial_pair (mkPair (mkElectron (Vec3 (-1) 0 0) 1)
                               (mkElectron origin 0))
                       (uniform_vec (- 1) 1 0 (1/2) (1/2))
                       (uniform_vec (- 1) 1 (1/2) (1/2) (1/2))).
Proof.
  destruct (update_enough (set_charge sim_face 0)
              (Rng [0; 1/2; 1/2; 1/2; 1/2; 1/2] [1/2]))
    as (ps' & Hrun & _); [reflexivity | simpl; lia | simpl; lia |].
  simpl in Hrun. eexists. split; [exact Hrun|].
  destruct (update_accepts_downhill (set_charge sim_face 0)
              (set_pairs (set_charge sim_face 0) ps')
              (Rng [0; 1/2; 1/2; 1/2; 1/2; 1/2] [1/2]) (Rng [] []) 0
              (mkPair (mkElectron (Vec3 (-1) 0 0) 1) (mkElectron origin 0)))
    as (a0 & a1 & a2 & b0 & b1 & b2 & Ha0 & Ha1 & Ha2 & Hb0 & Hb1 & Hb2 & H).
  - reflexivity.
  - repeat constructor; unfold unit_draw; lra.
  - exact Hrun.
  - reflexivity.
  - simpl in Ha0, Ha1, Ha2, Hb0, Hb1, Hb2.
    injection Ha0 as <-. injection Ha1 as <-. injection Ha2 as <-.
    injection Hb0 as <-. injection Hb1 as <-. injection Hb2 as <-.
    apply H. simpl. lra.
Defined.

Lemma sqrt3_step step x y z :
  0 <= step ->
  - step <= x <= step -> - step <= y <= step -> - step <= z <= step ->
  sqrt (x ^ 2 + y ^ 2 + z ^ 2) <= sqrt 3 * step.
Proof.
  intros Hs Hx Hy Hz.
  replace (sqrt 3 * step) with (sqrt (3 * (step * step))).
  - apply sqrt_le_1_alt. nra.
  - rewrite sqrt_mult by nra. by rewrite sqrt_square.
Qed.

Lemma get_dist_vec_add v d :
  get_dist v (vec_add v d) = sqrt (c0 d ^ 2 + c1 d ^ 2 + c2 d ^ 2).
Proof. unfold get_dist, vec_add. simpl. f_equal. ring. Qed.

Lemma metropolis_moves q step p d1 d2 u :
  0 <= step -> in_step step d1 -> in_step step d2 ->
  get_dist (r (e1 p)) (r (e1 (metropolis q p d1 d2 u))) <= sqrt 3 * step /\
  get_dist (r (e2 p)) (r (e2 (metropolis q p d1 d2 u))) <= sqrt 3 * step.
Proof.
  intros Hs (Hx1 & Hy1 & Hz1) (Hx2 & Hy2 & Hz2). unfold metropolis.
  destruct (Rgt_dec _ u).
  - unfold trial_pair. cbn [e1 e2 r]. rewrite !get_dist_vec_add.
    split; by apply sqrt3_step.
  - rewrite !get_dist_refl.
    assert (0 <= sqrt 3 * step) by (apply Rmult_le_pos; [apply sqrt_pos|done]).
    done.
Qed.

(** One call of [update] moves an electron by at most [sqrt 3 * step_size]:
    each coordinate changes by at most [step_size], so the bound of the
    move is the diagonal of the cube, not [step_size] itself. *)
Theorem update_step_bound (s s' : Qmc) (g g' : rng) (j : nat) (p p' : Pair) :
  num_pairs s = Z.of_nat (length (pairs s)) ->
  0 <= step_size s ->
  valid_tape (np_tape g) ->
  update s g = Done s' g' ->
  pairs s !! j = Some p ->
  pairs s' !! j = Some p' ->
  get_dist (r (e1 p)) (r (e1 p')) <= sqrt 3 * step_size s /\
  get_dist (r (e2 p)) (r (e2 p')) <= sqrt 3 * step_size s.
Proof.
  intros Hn Hs Hnp Hrun Hj Hj'.
  rewrite update_sweep in Hrun by done.
  destruct (metropolis_sweep _ _ _ _ _) as [[[ps' np'] py']|] eqn:E; [|done].
  inversion Hrun; subst; clear Hrun.
  destruct (metropolis_sweep_lookup _ _ _ _ _ _ _ _ _ _ E Hj)
    as (a0 & a1 & a2 & b0 & b1 & b2 & u
        & Ha0 & Ha1 & Ha2 & Hb0 & Hb1 & Hb2 & Hu & Hp').
  simpl in Hj'. rewrite Hp' in Hj'. injection Hj' as <-.
  assert (Hdraw : forall i x, np_tape g !! i = Some x -> unit_draw x).
  { intros i x Hx. exact (Forall_lookup_1 unit_draw _ _ _ Hnp Hx). }
  apply metropolis_moves; [done|..];
    apply uniform_vec_in_cube; eauto.
Qed.

Lemma update_step_bound_witness :
  get_dist (Vec3 (-1) 0 0) (Vec3 (-2) 0 0) <= sqrt 3 * 1 /\
  get_dist origin origin <= sqrt 3 * 1.
Proof.
  apply (update_step_bound sim_face
           (set_pairs sim_face
              [mkPair (mkElectron (Vec3 (-2) 0 0) 2) (mkElectron origin 0)])
           (Rng [0; 1/2; 1/2; 1/2; 1/2; 1/2] [0]) (Rng [] []) 0
           (mkPair (mkElectron (Vec3 (-1) 0 0) 1) (mkElectron origin 0))
           (mkPair (mkElectron (Vec3 (-2) 0 0) 2) (mkElectron origin 0))).
  - reflexivity.
  - simpl. lra.
  - repeat constructor; unfold unit_draw; lra.
  - exact sim_face_update.
  - reflexivity.
  - reflexivity.
Defined.

(** ** The vertex that [print_results] reports *)



(** ** Geometry *)

Lemma sum_squares_zero x y z : x ^ 2 + y ^ 2 + z ^ 2 = 0 -> x = 0 /\ y = 0 /\ z = 0.
Proof. intros H. repeat split; nra. Qed.

Lemma sum_squares_nonneg x y z : 0 <= x ^ 2 + y ^ 2 + z ^ 2.
Proof. nra. Qed.

Lemma get_dist_zero u v : get_dist u v = 0 <-> u = v.
Proof.
  split.
  - unfold get_dist. intros H.
    apply sqrt_eq_0 in H; [|apply sum_squares_nonneg].
    apply sum_squares_zero in H as (H0 & H1 & H2).
    destruct u, v. simpl in *. f_equal; lra.
  - intros ->. apply get_dist_refl.
Qed.

Lemma disp_get_dist v : disp v = get_dist origin v.
Proof. unfold disp, get_dist, origin. simpl. f_equal. ring. Qed.

Lemma disp_zero v : disp v = 0 <-> v = origin.
Proof.
  rewrite disp_get_dist, get_dist_zero. split; intros H; by symmetry.
Qed.

Lemma get_dist_sym u v : get_dist u v = get_dist v u.
Proof. unfold get_dist. f_equal. ring. Qed.

Lemma cauchy_schwarz3 a b c x y z :
  a * x + b * y + c * z <=
  sqrt (a ^ 2 + b ^ 2 + c ^ 2) * sqrt (x ^ 2 + y ^ 2 + z ^ 2).
Proof.
  rewrite <- sqrt_mult by apply sum_squares_nonneg.
  destruct (Rle_or_lt (a * x + b * y + c * z) 0) as [Hneg|Hpos].
  - pose proof (sqrt_pos ((a ^ 2 + b ^ 2 + c ^ 2) * (x ^ 2 + y ^ 2 + z ^ 2))).
    lra.
  - rewrite <- (sqrt_square (a * x + b * y + c * z)) by lra.
    apply sqrt_le_1_alt.
    assert (0 <= (a * y - b * x) ^ 2 + (a * z - c * x) ^ 2 + (b * z - c * y) ^ 2)
      by apply sum_squares_nonneg.
    nra.
Qed.

(** [get_dist] is a metric on positions, and [disp] is the distance to the
    nucleus: distances are symmetric and not negative, zero exactly between
    equal positions, and satisfy the triangle inequality. *)
Theorem get_dist_metric (u v w : vec3) :
  0 <= get_dist u v /\
  get_dist u v = get_dist v u /\
  (get_dist u v = 0 <-> u = v) /\
  get_dist u w <= get_dist u v + get_dist v w /\
  disp v = get_dist origin v.
Proof.
  split; [apply sqrt_pos|]. split; [apply get_dist_sym|].
  split; [apply get_dist_zero|]. split; [|apply disp_get_dist].
  unfold get_dist.
  set (a := c0 v - c0 u). set (b := c1 v - c1 u). set (c := c2 v - c2 u).
  set (x := c0 w - c0 v). set (y := c1 w - c1 v). set (z := c2 w - c2 v).
  replace (c0 w - c0 u) with (a + x) by (unfold a, x; ring).
  replace (c1 w - c1 u) with (b + y) by (unfold b, y; ring).
  replace (c2 w - c2 u) with (c + z) by (unfold c, z; ring).
  pose proof (cauchy_schwarz3 a b c x y z) as Hcs.
  pose proof (sqrt_pos (a ^ 2 + b ^ 2 + c ^ 2)) as Hp.
  pose proof (sqrt_pos (x ^ 2 + y ^ 2 + z ^ 2)) as Hq.
  pose proof (sqrt_sqrt _ (sum_squares_nonneg a b c)) as Hpp.
  pose proof (sqrt_sqrt _ (sum_squares_nonneg x y z)) as Hqq.
  rewrite <- (sqrt_square (sqrt (a ^ 2 + b ^ 2 + c ^ 2)
                           + sqrt (x ^ 2 + y ^ 2 + z ^ 2))) by lra.
  apply sqrt_le_1_alt. nra.
Qed.

(** ** Where the local energy is not finite *)

(** [Pair.energy] raises [OverflowError] exactly when [charge ** 2] is out
    of the range of a float.  Otherwise it returns a value, and that value
    is [inf], [-inf] or [nan] whenever a cached norm is zero or the two
    electrons are at the same position: the division by zero is not
    guarded. *)
Theorem energy_outcome (p : Pair) (q : R) :
  (pow_overflow <= q ^ 2 <-> energy p q = Raise OverflowError) /\
  (q ^ 2 < pow_overflow ->
   exists v, energy p q = Ok v /\ (singular p -> ~ is_finite v)).
Proof.
  split; [split|].
  - apply energy_overflow.
  - intros H. destruct (Rle_or_lt pow_overflow (q ^ 2)) as [|Hlt]; [done|].
    by rewrite energy_Ok in H.
  - intros Hq. rewrite energy_Ok by done. eexists. split; [done|].
    intros Hs Hfin. apply singular_not_nonsingular in Hs. apply Hs.
    by apply (local_energy64_finite_iff p q).
Qed.

(** ** When the sampler returns *)

(** [random_vector] does return as soon as the stream of draws holds a
    round of three whose vector lies in the ball: after any number of
    rejected rounds it returns the first accepted vector with its norm, and
    leaves the draws behind it, and Python's generator, untouched. *)
Theorem random_vector_returns_first_accepted
    (s : Qmc) (pre : list R) (u0 u1 u2 : R) (rest py : list R) :
  all_rejected (radius s) pre ->
  disp (uniform_vec (- radius s) (radius s) u0 u1 u2) <= radius s ->
  random_vector s (Rng (pre ++ u0 :: u1 :: u2 :: rest) py) =
    Done (uniform_vec (- radius s) (radius s) u0 u1 u2,
          disp (uniform_vec (- radius s) (radius s) u0 u1 u2))
         (Rng rest py).
Proof.
  intros Hrej Hacc. apply random_vector_Done_iff.
  exists pre, u0, u1, u2. by simpl.
Qed.

Lemma corner_rejected : all_rejected 1 [0; 0; 0].
Proof.
  constructor; [|constructor].
  unfold disp, uniform_vec, scale; simpl.
  intros Hle. assert (Hlt : sqrt 1 < sqrt 3) by (apply sqrt_lt_1_alt; lra).
  match type of Hle with sqrt ?x <= _ => replace x with 3 in Hle by lra end.
  rewrite sqrt_1 in Hlt. lra.
Qed.

Lemma random_vector_returns_first_accepted_witness :
  random_vector sim_origin (Rng ([0; 0; 0] ++ [0; 1/2; 1/2]) []) =
    Done (uniform_vec (- 1) 1 0 (1/2) (1/2),
          disp (uniform_vec (- 1) 1 0 (1/2) (1/2))) (Rng [] []).
Proof.
  apply (random_vector_returns_first_accepted sim_origin [0; 0; 0] 0 (1/2) (1/2)
           [] []).
  - exact corner_rejected.
  - cbn [radius sim_origin].
    rewrite (uniform_vec_face 1), disp_axis, Rabs_left by lra. lra.
Defined.

(** ** What [reset] does *)

Lemma sampled_app radius tape vs mid ws rest :
  sampled radius tape vs mid -> sampled radius mid ws rest ->
  sampled radius tape (vs ++ ws) rest.
Proof. induction 1; simpl; [done|]. intros Hws. constructor; auto. Qed.

Lemma sampled_in_ball radius tape vs rest :
  sampled radius tape vs rest -> Forall (fun v => disp v <= radius) vs.
Proof. induction 1; by constructor. Qed.

Lemma random_vector_sampled s g v n g' :
  random_vector s g = Done (v, n) g' ->
  sampled (radius s) (np_tape g) [v] (np_tape g') /\
  n = disp v /\ py_tape g' = py_tape g.
Proof.
  intros (pre & u0 & u1 & u2 & -> & Hrej & -> & -> & Hle & Hpy)
    %random_vector_Done_iff.
  split; [|done]. constructor; [done..|constructor].
Qed.

Lemma reset_pair_sampled s p g p' g' :
  reset_pair s p g = Done p' g' ->
  exists v1 v2,
    sampled (radius s) (np_tape g) [v1; v2] (np_tape g') /\
    p' = mkPair (mkElectron v2 (disp v1)) (mkElectron (r (e2 p)) (disp v2)) /\
    py_tape g' = py_tape g.
Proof.
  unfold reset_pair. intros H.
  apply bind_Done in H as ([v1 n1] & g1 & Hv1 & H).
  apply bind_Done in H as ([v2 n2] & g2 & Hv2 & H).
  inversion H; subst; clear H. simpl.
  apply random_vector_sampled in Hv1 as (Hs1 & -> & Hpy1).
  apply random_vector_sampled in Hv2 as (Hs2 & -> & Hpy2).
  exists v1, v2. split; [|split; [done|congruence]].
  exact (sampled_app _ _ [v1] _ [v2] _ Hs1 Hs2).
Qed.

Lemma reset_loop_sampled s : forall ps g ps' g',
  reset_loop s ps g = Done ps' g' ->
  exists vs,
    sampled (radius s) (np_tape g) vs (np_tape g') /\
    length vs = (2 * length ps)%nat /\
    py_tape g' = py_tape g /\
    forall i p, ps !! i = Some p ->
      exists v1 v2,
        vs !! (2 * i)%nat = Some v1 /\ vs !! (2 * i + 1)%nat = Some v2 /\
        ps' !! i =
          Some (mkPair (mkElectron v2 (disp v1))
                       (mkElectron (r (e2 p)) (disp v2))).
Proof.
  induction ps as [|p ps IH]; intros g ps' g' H.
  - inversion H; subst. exists []. repeat split; [constructor|done].
  - cbn [reset_loop] in H.
    apply bind_Done in H as (p' & g1 & Hp & H).
    apply bind_Done in H as (rest' & g2 & Hrest & H).
    inversion H; subst; clear H.
    apply reset_pair_sampled in Hp as (v1 & v2 & Hs12 & -> & Hpy1).
    apply IH in Hrest as (vs & Hs & Hlen & Hpy & Hat).
    exists ([v1; v2] ++ vs).
    split; [by eapply sampled_app|]. split; [simpl; lia|].
    split; [congruence|].
    intros [|i] q Hq.
    + inversion Hq; subst. by exists v1, v2.
    + simpl in Hq. destruct (Hat i q Hq) as (w1 & w2 & H1 & H2 & H3).
      exists w1, w2.
      replace (2 * S i)%nat with (S (S (2 * i))) by lia. by simpl.
Qed.

(** [reset] reads two accepted samples per pair off numpy's generator, in
    order, and nothing off Python's, and keeps the number of pairs and every
    parameter of the ensemble.  With [v1] and [v2] the two samples of pair
    [i]: electron 1 gets the second sample [v2] as its position and the
    norm of the first, [|v1|], as its cached norm; electron 2 keeps its
    position and gets [|v2|] as its cached norm.  Both samples lie within
    the radius. *)
Theorem reset_effect (s : Qmc) (g : rng) (s' : Qmc) (g' : rng) :
  reset s g = Done s' g' ->
  s' = set_pairs s (pairs s') /\
  same_frame s s' /\
  py_tape g' = py_tape g /\
  exists vs,
    sampled (radius s) (np_tape g) vs (np_tape g') /\
    length vs = (2 * length (pairs s))%nat /\
    Forall (fun v => disp v <= radius s) vs /\
    forall i p, pairs s !! i = Some p ->
      exists v1 v2,
        vs !! (2 * i)%nat = Some v1 /\ vs !! (2 * i + 1)%nat = Some v2 /\
        pairs s' !! i =
          Some (mkPair (mkElectron v2 (disp v1))
                       (mkElectron (r (e2 p)) (disp v2))).
Proof.
  unfold reset. intros H. apply bind_Done in H as (ps' & g1 & Hloop & H).
  inversion H; subst; clear H. simpl.
  pose proof (reset_loop_length _ _ _ _ _ Hloop) as Hlen.
  apply reset_loop_sampled in Hloop as (vs & Hs & Hvs & Hpy & Hat).
  split; [done|]. split; [by repeat split|]. split; [done|].
  exists vs. split; [done|]. split; [done|].
  split; [by eapply sampled_in_ball | done].
Qed.

Lemma sim_origin_reset :
  reset sim_origin (Rng [1/2; 1/2; 1/2; 0; 1/2; 1/2] []) =
    Done (set_pairs sim_origin
            [mkPair (mkElectron (Vec3 (-1) 0 0) 0) (mkElectron origin 1)])
         (Rng [] []).
Proof.
  unfold reset, sim_origin. cbn [pairs reset_loop]. unfold bind at 1 2.
  unfold reset_pair. unfold bind at 1.
  rewrite (random_vector_first _ _ _ _ _ _ origin);
    [|apply uniform_vec_centre | simpl; rewrite disp_origin; lra].
  unfold bind at 1.
  rewrite (random_vector_first _ _ _ _ _ _ (Vec3 (-1) 0 0));
    [|apply (uniform_vec_face 1) | simpl; rewrite disp_axis; rewrite Rabs_m1; lra].
  rewrite disp_origin, disp_axis, Rabs_m1. reflexivity.
Qed.

Lemma reset_effect_witness :
  exists vs,
    sampled (radius sim_origin) [1/2; 1/2; 1/2; 0; 1/2; 1/2] vs [] /\
    length vs = (2 * length (pairs sim_origin))%nat.
Proof.
  destruct (reset_effect sim_origin (Rng [1/2; 1/2; 1/2; 0; 1/2; 1/2] [])
              _ _ sim_origin_reset) as (_ & _ & _ & vs & Hs & Hlen & _).
  exists vs. exact (conj Hs Hlen).
Defined.

(** ** Calibration raises nothing *)

Lemma same_frame_refl s : same_frame s s.
Proof. by repeat split. Qed.

Lemma same_frame_trans s1 s2 s3 :
  same_frame s1 s2 -> same_frame s2 s3 -> same_frame s1 s3.
Proof.
  intros (? & ? & ? & ? & ?) (? & ? & ? & ? & ?). repeat split; congruence.
Qed.

Lemma same_frame_nonempty s s' :
  same_frame s s' -> pairs s <> [] -> pairs s' <> [].
Proof.
  intros (_ & _ & _ & _ & Hlen) Hne Hnil. rewrite Hnil in Hlen.
  destruct (pairs s); [done|]. simpl in Hlen. lia.
Qed.

Lemma update_Done_shape s g s' g' :
  well_formed s -> update s g = Done s' g' ->
  well_formed s' /\ same_frame s s'.
Proof.
  intros Hwf Hrun. pose proof Hwf as (Hn & _).
  rewrite update_sweep in Hrun by done.
  destruct (metropolis_sweep _ _ _ _ _) as [[[ps' np'] py']|] eqn:E; [|done].
  apply metropolis_sweep_length in E as [Hlen _].
  inversion Hrun; subst.
  split; [by apply set_pairs_well_formed | by repeat split].
Qed.

Lemma plot_system_shape s :
  well_formed s ->
  exists s', plot_system s = Ok s' /\ well_formed s' /\ same_frame s s'.
Proof.
  intros Hwf. unfold plot_system. rewrite get_data_value by done.
  cbn [rbind fst]. eexists. split; [done|]. split; [|by repeat split].
  destruct Hwf as (Hn & _).
  apply set_data_well_formed; [done | apply snapshot_length..].
Qed.

Lemma same_frame_charge s s' :
  same_frame s s' -> charge s ^ 2 < pow_overflow ->
  charge s' ^ 2 < pow_overflow.
Proof. intros (_ & _ & _ & -> & _). done. Qed.

Lemma window_body_step plotting sim buffer ts i g :
  well_formed sim -> pairs sim <> [] -> charge sim ^ 2 < pow_overflow ->
  (i < length buffer)%nat ->
  match window_body plotting (sim, buffer, ts) i g with
  | Done (sim', buffer', ts') g' =>
      well_formed sim' /\ same_frame sim sim' /\
      length buffer' = length buffer /\ length ts' = S (length ts)
  | Raised e => False
  | Starved => True
  end.
Proof.
  intros Hwf Hne Hq Hi. pose proof Hwf as (Hn & _).
  unfold window_body. unfold bind at 1. rewrite avg_energy_Ok by done.
  unfold lift at 1. unfold bind at 1. rewrite np_setitem_Ok by done.
  unfold lift at 1. unfold bind at 1.
  destruct (update sim g) as [sim1 g1|e|] eqn:Hupd; [| |done].
  - apply update_Done_shape in Hupd as [Hwf1 Hfr1]; [|done].
    destruct (plotting && (i mod 10 =? 0)%nat).
    + unfold bind, lift.
      destruct (plot_system_shape sim1 Hwf1) as (sim2 & -> & Hwf2 & Hfr2).
      unfold ret. split; [done|]. split; [by eapply same_frame_trans|].
      split; [by rewrite length_insert|]. rewrite length_app. simpl. lia.
    + unfold ret. split; [done|]. split; [done|].
      split; [by rewrite length_insert|]. rewrite length_app. simpl. lia.
  - by apply update_not_Raised in Hupd.
Qed.

Lemma window_steps plotting : forall k i sim buffer ts g,
  well_formed sim -> pairs sim <> [] -> charge sim ^ 2 < pow_overflow ->
  (i + k <= length buffer)%nat ->
  match for_rangeM (window_body plotting) i k (sim, buffer, ts) g with
  | Done (sim', buffer', ts') g' =>
      well_formed sim' /\ same_frame sim sim' /\
      length buffer' = length buffer /\ length ts' = (length ts + k)%nat
  | Raised e => False
  | Starved => True
  end.
Proof.
  induction k as [|k IH]; intros i sim buffer ts g Hwf Hne Hq Hi.
  - simpl. split; [done|]. split; [apply same_frame_refl|]. split; [done|lia].
  - cbn [for_rangeM]. unfold bind.
    pose proof (window_body_step plotting sim buffer ts i g Hwf Hne Hq) as Hstep.
    destruct (window_body plotting (sim, buffer, ts) i g)
      as [[[sim1 buffer1] ts1] g1|e|]; [|by apply Hstep; lia|done].
    destruct Hstep as (Hwf1 & Hfr1 & Hb1 & Hts1); [lia|].
    pose proof (IH (S i) sim1 buffer1 ts1 g1 Hwf1
                   (same_frame_nonempty _ _ Hfr1 Hne)
                   (same_frame_charge _ _ Hfr1 Hq)) as Hrest.
    destruct (for_rangeM (window_body plotting) (S i) k (sim1, buffer1, ts1) g1)
      as [[[sim2 buffer2] ts2] g2|e|]; [|by apply Hrest; lia|done].
    destruct Hrest as (Hwf2 & Hfr2 & Hb2 & Hts2); [lia|].
    split; [done|]. split; [by eapply same_frame_trans|].
    split; [congruence|lia].
Qed.

Lemma calibrate_loop_steps plotting : forall fuel sim buffer ts prev g,
  well_formed sim -> pairs sim <> [] -> charge sim ^ 2 < pow_overflow ->
  length buffer = window_size ->
  match calibrate_loop fuel plotting sim buffer ts prev g with
  | Done (sim', ts') g' =>
      well_formed sim' /\ same_frame sim sim' /\
      exists k, (1 <= k <= fuel)%nat /\
                length ts' = (length ts + window_size * k)%nat
  | Raised e => False
  | Starved => True
  end.
Proof.
  induction fuel as [|fuel IH];
    intros sim buffer ts prev g Hwf Hne Hq Hb; [done|].
  cbn [calibrate_loop]. unfold bind.
  pose proof (window_steps plotting window_size 0 sim buffer ts g Hwf Hne Hq)
    as Hw.
  destruct (for_rangeM (window_body plotting) 0 window_size (sim, buffer, ts) g)
    as [[[sim1 buffer1] ts1] g1|e|]; [|by apply Hw; lia|done].
  destruct Hw as (Hwf1 & Hfr1 & Hb1 & Hts1); [lia|].
  destruct (np_lt (np_average buffer1) prev).
  - pose proof (IH sim1 buffer1 ts1 (np_average buffer1) g1 Hwf1
                   (same_frame_nonempty _ _ Hfr1 Hne)
                   (same_frame_charge _ _ Hfr1 Hq)) as Hrest.
    destruct (calibrate_loop fuel plotting sim1 buffer1 ts1 _ g1)
      as [[sim2 ts2] g2|e|]; [|by apply Hrest; congruence|done].
    destruct Hrest as (Hwf2 & Hfr2 & k & Hk & Hts2); [congruence|].
    split; [done|]. split; [by eapply same_frame_trans|].
    exists (S k). split; [lia|]. rewrite Hts2, Hts1. lia.
  - unfold ret. split; [done|]. split; [done|].
    exists 1%nat. split; [lia|]. rewrite Hts1. lia.
Qed.

(** On an ensemble of the constructor's shape with at least one pair,
    [calibrate_system] raises [OverflowError] in its first round when
    [charge ** 2] is out of the range of a float, and raises nothing
    otherwise.  When it returns, the ensemble still has that shape, the
    same number of pairs and the same parameters, and the samples it
    returns are those of [k] whole windows of [25], for some [k] from [1]
    to the number of rounds allowed. *)
Theorem calibrate_system_safe (fuel : nat) (sim : Qmc) (plotting : bool)
    (g : rng) :
  well_formed sim -> pairs sim <> [] ->
  (pow_overflow <= charge sim ^ 2 ->
   calibrate_system (S fuel) sim plotting g = Raised OverflowError) /\
  (charge sim ^ 2 < pow_overflow ->
   (forall e, calibrate_system fuel sim plotting g <> Raised e) /\
   (forall sim' ts g',
      calibrate_system fuel sim plotting g = Done (sim', ts) g' ->
      well_formed sim' /\ same_frame sim sim' /\
      exists k, (1 <= k <= fuel)%nat /\ length ts = (25 * k)%nat)).
Proof.
  intros Hwf Hne. split.
  - intros Hq. unfold calibrate_system. cbn [calibrate_loop].
    unfold bind at 1. unfold window_size at 1. cbn [for_rangeM].
    unfold bind at 1. unfold window_body at 1. unfold bind at 1.
    by rewrite avg_energy_overflow.
  - intros Hq. unfold calibrate_system.
    pose proof (calibrate_loop_steps plotting fuel sim
                  (replicate window_size (Fin 0)) [] (Fin 100) g Hwf Hne Hq
                  (length_replicate _ _)) as H.
    split.
    + intros e He. by rewrite He in H.
    + intros sim' ts g' Hrun. rewrite Hrun in H.
      destruct H as (Hwf' & Hfr & k & Hk & Hts). by eauto.
Qed.

Lemma sim_axis_well_formed : well_formed sim_axis.
Proof. by repeat split. Qed.

Lemma calibrate_system_safe_witness :
  exists k, (1 <= k <= 2)%nat /\
            length (replicate 25 (Fin 196)) = (25 * k)%nat.
Proof.
  destruct (calibrate_system_safe 2 sim_axis false
              (Rng (replicate 300 (1/2)) (replicate 50 (1/2)))
              sim_axis_well_formed ltac:(discriminate)) as [_ H].
  destruct H as [_ H]; [apply small_square; simpl; lra|].
  destruct (H sim_axis (replicate 25 (Fin 196))
              (Rng (replicate 150 (1/2)) (replicate 25 (1/2)))) as (_ & _ & Hk).
  - unfold calibrate_system. cbn [calibrate_loop]. unfold bind.
    rewrite sim_axis_window.
    rewrite np_average_replicate by lia. by rewrite np_lt_196_100.
  - exact Hk.
Defined.

(** ** What the constructor leaves behind *)

(** When [Qmc.__init__] returns, [num_pairs] was not negative; the object
    stores the four parameters as given, holds exactly [num_pairs] pairs and
    three coordinate arrays of [2 * num_pairs] zeros; and the construction
    took exactly [2 * num_pairs] accepted samples from numpy's generator and
    nothing from Python's. *)
Theorem Qmc_init_postcondition
    (n : Z) (rad step q : R) (g : rng) (s : Qmc) (g' : rng) :
  Qmc_init n rad step q g = Done s g' ->
  (0 <= n)%Z /\
  s = mkQmc n (pairs s) rad step q
            (replicate (Z.to_nat (2 * n)) 0) (replicate (Z.to_nat (2 * n)) 0)
            (replicate (Z.to_nat (2 * n)) 0) /\
  length (pairs s) = Z.to_nat n /\
  py_tape g' = py_tape g /\
  supplies rad (2 * Z.to_nat n) (np_tape g) (np_tape g').
Proof.
  intros Hrun. destruct (Z.ltb_spec n 0) as [Hneg|Hn].
  { unfold Qmc_init, np_zeros, bind, lift in Hrun.
    by destruct (Z.ltb_spec (2 * n) 0); [|lia]. }
  rewrite Qmc_init_unfold in Hrun by done.
  apply generate_pairs_loop_Done in Hrun
    as (new & -> & Hlen & _ & _ & Hsup & Hpy).
  by repeat split.
Qed.

Lemma Qmc_init_postcondition_witness :
  length (pairs sim_face) = Z.to_nat 1 /\
  supplies 1 (2 * Z.to_nat 1) [0; 1/2; 1/2; 1/2; 1/2; 1/2] [].
Proof.
  destruct (Qmc_init_postcondition 1 1 1 1
              (Rng [0; 1/2; 1/2; 1/2; 1/2; 1/2] []) sim_face (Rng [] [])
              sim_face_constructed) as (_ & _ & Hlen & _ & Hsup).
  exact (conj Hlen Hsup).
Defined.
